(** * nostr_karma: vote aggregation, feed buffering, mining and vote toggle

    A shallow embedding of the client in [src/test.js] (class [NostrClient]
    and the top-level [mineAndFinish]) and the properties of its vote
    resolution, relay collection, feed buffer, proof-of-work miner and vote
    ledger.

    Conventions of the embedding.
    - JavaScript numbers that the code only uses as integers (timestamps,
      signs, counters, difficulty) are [Z].
    - [undefined] fields are [None]; a string is falsy exactly when it is
      empty, so [!x] on an optional string is [negb (truthy x)].
    - Plain objects and [Map]s used as dictionaries are finite maps; an
      object whose enumeration order is observed ([Object.values]) is an
      insertion-ordered association list.
    - The host functions the code calls but does not define ([Number], the
      hashing and signing of nostr-tools, the relays) are section variables
      or fields of the [Relay] record: every theorem holds for all of them. *)

From stdpp Require Import gmap strings list fin_maps pretty sorting.
From Stdlib Require Import ZArith Lia Ascii.

Open Scope Z_scope.

(** ** Events *)

(** A tag is an array of strings: [['v', '1']]. *)
Definition Tag := list string.

(** An event object.  The same shape serves for the unsigned payload handed
    to [finishEvent] ([pubkey], [id] and [sig] still [None]) and for signed
    events.  [tags] is always an array: nostr-tools only hands validated
    events to subscription listeners. *)
Record Event := mkEvent {
  kind : Z;
  created_at : option Z;
  tags : list Tag;
  content : string;
  pubkey : option string;
  id : option string;
  sig : option string
}.

#[global] Instance Event_eq_dec : EqDecision Event.
Proof. solve_decision. Defined.

Definition KIND_NOTE : Z := 1.
Definition KIND_KARMA_VOTE : Z := 30010.

(** ** Host language helpers *)

(** Truthiness of an optional string: [undefined] and [''] are falsy. *)
Definition truthy (s : option string) : bool :=
  match s with
  | Some s => bool_decide (s ≠ "")
  | None => false
  end.

(** [x || 0] on an optional integer ([undefined], [NaN] and [0] give [0]). *)
Definition or0 (x : option Z) : Z := default 0 x.

(** The result of [Number(x)] as far as the code looks at it: an integer, or
    a value that is no integer ([NaN], a fraction, an infinity). *)
Inductive number :=
  | Int (z : Z)
  | NotInt.

(** [arr.includes(x)] on an array of integers. *)
Definition includes (arr : list Z) (x : Z) : bool := bool_decide (x ∈ arr).

(** ** Vote resolution: [computeScore] *)

(** The value stored per voter in [latestByVoter]: [{ ts, sign }]. *)
Record Latest := mkLatest { ts : Z; sign : Z }.

Section Score.

(** ECMAScript's [Number] applied to a string. *)
Variable Number : string → number.

(** [Number(signTag[1])]: a missing element is [undefined], whose
    conversion is [NaN]. *)
Definition NumberOf (v : option string) : number :=
  match v with
  | Some s => Number s
  | None => NotInt
  end.

(** One iteration of [for (const ev of voteEvents)]; each [continue]
    returns the map unchanged. *)
Definition scoreStep (latestByVoter : gmap string Latest) (ev : Event)
  : gmap string Latest :=
  match List.find (λ t, bool_decide (head t = Some "v")) (tags ev) with
  | None => latestByVoter
  | Some signTag =>
    match NumberOf (signTag !! 1%nat) with
    | NotInt => latestByVoter
    | Int sign =>
      if negb (includes [1; -1; 0] sign) then latestByVoter
      else
        let voter := pubkey ev in
        if negb (truthy voter) then latestByVoter
        else
          match voter with
          | None => latestByVoter
          | Some voter =>
            let ts := or0 (created_at ev) in
            match latestByVoter !! voter with
            | None => <[voter := mkLatest ts sign]> latestByVoter
            | Some (mkLatest prev_ts _) =>
              if ts >? prev_ts then <[voter := mkLatest ts sign]> latestByVoter
              else latestByVoter
            end
          end
    end
  end.

(** The map after the first loop. *)
Definition latestByVoter (voteEvents : list Event) : gmap string Latest :=
  foldl scoreStep ∅ voteEvents.

(** The second loop: [score += sign] over the map's values.  Integer
    addition commutes, so the iteration order of the map is immaterial. *)
Definition sumSigns (m : gmap string Latest) : Z :=
  map_fold (λ _ v score, score + v.(sign)) 0 m.

Definition computeScore (voteEvents : list Event) : Z :=
  sumSigns (latestByVoter voteEvents).

(** The [(voter, timestamp, sign)] triple that an iteration of the first
    loop works with, [None] when the iteration ends in a [continue]
    (lemma [scoreStep_voteTriple]). *)
Definition voteTriple (ev : Event) : option (string * Z * Z) :=
  match List.find (λ t, bool_decide (head t = Some "v")) (tags ev) with
  | None => None
  | Some signTag =>
    match NumberOf (signTag !! 1%nat) with
    | NotInt => None
    | Int sign =>
      if includes [1; -1; 0] sign then
        match pubkey ev with
        | Some voter =>
          if truthy (Some voter) then Some (voter, or0 (created_at ev), sign)
          else None
        | None => None
        end
      else None
    end
  end.

Definition voterOf (ev : Event) : option string :=
  (λ v, v.1.1) <$> voteTriple ev.

(** The events of [voteEvents] that do not count as a vote of [voter]. *)
Definition withoutVoter (voter : string) (voteEvents : list Event)
  : list Event :=
  filter (λ ev, voterOf ev ≠ Some voter) voteEvents.

(** Whether the event carries a tag named [name]. *)
Definition hasTag (name : string) (ev : Event) : bool :=
  existsb (λ t, bool_decide (head t = Some name)) (tags ev).

(** A vote as the specification words it: a [p] tag, an [e] tag and a [v]
    tag whose value converts to one of 1, -1 and 0. *)
Definition specWellFormedVote (ev : Event) : bool :=
  hasTag "p" ev && hasTag "e" ev &&
  match List.find (λ t, bool_decide (head t = Some "v")) (tags ev) with
  | Some signTag =>
    match NumberOf (signTag !! 1%nat) with
    | Int sign => includes [1; -1; 0] sign
    | NotInt => false
    end
  | None => false
  end.

(** Two votes of one voter with one timestamp and two signs. *)
Definition conflictingTie (e1 e2 : Event) : bool :=
  match voteTriple e1, voteTriple e2 with
  | Some (v1, t1, s1), Some (v2, t2, s2) =>
    bool_decide (v1 = v2) && (t1 =? t2) && negb (s1 =? s2)
  | _, _ => false
  end.

(** No two events of the list are such a pair. *)
Definition tieFree (voteEvents : list Event) : Prop :=
  ∀ e1 e2, e1 ∈ voteEvents → e2 ∈ voteEvents → conflictingTie e1 e2 = false.

(** The event with every tag other than the [v] tags removed. *)
Definition onlySignTags (ev : Event) : Event :=
  mkEvent (kind ev) (created_at ev)
    (List.filter (λ t, bool_decide (head t = Some "v")) (tags ev))
    (content ev) (pubkey ev) (id ev) (sig ev).

End Score.

(** *** An instance of [Number]

    Decimal digits and their value. *)
Definition digitValue (c : ascii) : option Z :=
  let n := Z.of_N (Ascii.N_of_ascii c) in
  if (48 <=? n) && (n <=? 57) then Some (n - 48) else None.

Fixpoint digitsValue (acc : Z) (s : string) : option Z :=
  match s with
  | EmptyString => Some acc
  | String c s' =>
    match digitValue c with
    | Some d => digitsValue (10 * acc + d) s'
    | None => None
    end
  end.

Definition unsignedLiteral (s : string) : option Z :=
  match s with
  | EmptyString => None
  | _ => digitsValue 0 s
  end.

(** The conversion on the signed decimal integer literals, where it is
    ECMAScript's ([Number('1') = 1], [Number('-1') = -1], [Number('+07') = 7]).
    Strings outside that fragment are not covered by this instance and are
    sent to [NotInt]; it serves to evaluate the code on concrete events, and
    the theorems are stated for every [Number]. *)
Definition NumberInt (s : string) : number :=
  let lit :=
    match s with
    | String "-"%char s' => Z.opp <$> unsignedLiteral s'
    | String "+"%char s' => unsignedLiteral s'
    | _ => unsignedLiteral s
    end in
  match lit with
  | Some z => Int z
  | None => NotInt
  end.

(** ** Relays *)

(** A subscription filter: [{ kinds, '#e', limit }]. *)
Record Filter := mkFilter {
  kinds : list Z;
  tag_e : list string;
  limit : Z
}.

(** What [relay.sub(filters)] does: it throws, or it returns a subscription
    that hands events to its ['event'] listener, each at some number of
    milliseconds after the subscription was opened, in order of arrival. *)
Inductive SubOutcome :=
  | SubThrows
  | Delivers (arrivals : list (Z * Event)).

(** What [relay.publish(ev)] does: it throws, or it returns a promise that
    settles, fulfilled when the relay accepted the event. *)
Inductive PublishOutcome :=
  | PublishThrows
  | PublishSettles (accepted : bool).

Record Relay := mkRelay {
  url : string;
  status : Z;
  sub : list Filter → SubOutcome;
  publish : Event → PublishOutcome
}.

(** The state of a promise once it has settled. *)
Inductive Settled (A : Type) :=
  | Fulfilled (a : A)
  | Rejected.
Arguments Fulfilled {A} a.
Arguments Rejected {A}.

(** ** A plain object used as an id-indexed dictionary: [out[ev.id] = ev]

    Event ids are 64-digit hex strings, never array indices, so the object
    enumerates its properties in insertion order and an assignment to an
    existing key keeps the key's place. *)
Definition Obj := list (string * Event).

Fixpoint objSet (out : Obj) (k : string) (v : Event) : Obj :=
  match out with
  | [] => [(k, v)]
  | (k', v') :: rest =>
    if decide (k' = k) then (k, v) :: rest else (k', v') :: objSet rest k v
  end.

Definition objValues (out : Obj) : list Event := out.*2.

(** The property key an id is converted to: [undefined] reads "undefined". *)
Definition propKey (i : option string) : string := default "undefined" i.

(** ** [collectFromRelay] and [fetchVotesForPost] *)

(** The listener [(ev) => { out[ev.id] = ev }] runs for the events that
    arrive before the timer fires; the timer resolves the promise with
    [Object.values(out)].  An exception thrown by [relay.sub] inside the
    promise executor rejects the promise.  The race between an arrival and
    the timer is decided on the times alone: an arrival at [t] counts when
    [t] is before [timeoutMs]; how late a host may fire a timer is not
    modelled. *)
Definition collectFromRelay (relay : Relay) (filters : list Filter)
    (timeoutMs : Z) : Settled (list Event) :=
  match sub relay filters with
  | SubThrows => Rejected
  | Delivers arrivals =>
    let out :=
      foldl (λ (out : Obj) '(t, ev),
               if t <? timeoutMs then objSet out (propKey (id ev)) ev else out)
            [] arrivals in
    Fulfilled (objValues out)
  end.

Definition voteFilters (eventIdHex : string) : list Filter :=
  [mkFilter [KIND_KARMA_VOTE] [eventIdHex] 200].

(** One iteration of [for (const relay of this.relays)]: [try] the
    collection, [results.push(...events)]; the [catch] only logs. *)
Definition fetchStep (filters : list Filter) (timeoutMs : Z)
    (results : list Event) (relay : Relay) : list Event :=
  match collectFromRelay relay filters timeoutMs with
  | Fulfilled events => results ++ events
  | Rejected => results
  end.

Definition fetchVotesForPost (relays : list Relay) (eventIdHex : string)
    (timeoutMs : Z) : list Event :=
  foldl (fetchStep (voteFilters eventIdHex) timeoutMs) [] relays.

(** ** Signing and mining: [finishEvent], [mineAndFinish] *)

Definition setTags (ev : Event) (tags' : list Tag) : Event :=
  mkEvent (kind ev) (created_at ev) tags' (content ev) (pubkey ev) (id ev) (sig ev).

(** ['0'.repeat(n)] and the like. *)
Fixpoint repeatStr (s : string) (n : nat) : string :=
  match n with
  | O => ""
  | S n => s +:+ repeatStr s n
  end.

(** [s.startsWith(p)] on an id; [finishEvent] always sets the id. *)
Definition startsWith (s : option string) (p : string) : bool :=
  match s with
  | Some s => String.prefix p s
  | None => false
  end.

Section Signing.

(** The cryptography of nostr-tools. *)
Variable getPublicKey : string → string.
Variable getEventHash : Event → string.
Variable getSignature : Event → string → string.

(** nostr-tools' [finishEvent(t, privateKey)]: it fills in [pubkey], then
    [id] (the hash of the event so far), then [sig]; the other fields are
    those of [t]. *)
Definition finishEvent (t : Event) (privateKey : string) : Event :=
  let e1 := mkEvent (kind t) (created_at t) (tags t) (content t)
              (Some (getPublicKey privateKey)) (id t) (sig t) in
  let e2 := mkEvent (kind e1) (created_at e1) (tags e1) (content e1)
              (pubkey e1) (Some (getEventHash e1)) (sig e1) in
  mkEvent (kind e2) (created_at e2) (tags e2) (content e2)
    (pubkey e2) (id e2) (Some (getSignature e2 privateKey)).

(** The [while (nonce < maxIters)] loop of [mineAndFinish], together with
    the statement after it.  The second component of the result counts the
    calls of [finishEvent].  [remaining] bounds the iterations still to
    run; it is started at [maxIters], so it reaches [O] exactly when the
    loop test fails (lemma [mineLoop_fuel]), where the code leaves the loop
    as well. *)
Fixpoint mineLoop (remaining : nat) (unsigned : Event) (sk : string)
    (nibbles : Z) (targetPrefix : string) (maxIters nonce : Z) (calls : nat)
  : Event * nat :=
  match remaining with
  | O => (finishEvent unsigned sk, S calls)
  | S remaining =>
    if nonce <? maxIters then
      let u := setTags unsigned (tags unsigned ++ [["nonce"; pretty nonce]]) in
      let ev := finishEvent u sk in
      if (nibbles =? 0) || startsWith (id ev) targetPrefix then (ev, S calls)
      else mineLoop remaining unsigned sk nibbles targetPrefix maxIters
             (nonce + 1) (S calls)
    else (finishEvent unsigned sk, S calls)
  end.

(** [mineAndFinish(unsigned, sk, powBits, maxIters)] with the number of
    signing calls it made.  [unsigned.tags || []] is [unsigned.tags], an
    array being truthy. *)
Definition mineAndFinishCounted (unsigned : Event) (sk : string)
    (powBits maxIters : Z) : Event * nat :=
  let nibbles := Z.max 0 (powBits / 4) in
  let targetPrefix := repeatStr "0" (Z.to_nat nibbles) in
  mineLoop (Z.to_nat maxIters) unsigned sk nibbles targetPrefix maxIters 0 0.

Definition mineAndFinish (unsigned : Event) (sk : string)
    (powBits maxIters : Z) : Event :=
  (mineAndFinishCounted unsigned sk powBits maxIters).1.

End Signing.

(** ** The client *)

Record Client := mkClient {
  privateKey : option string;
  publicKey : option string;
  relays : list Relay;
  connectedRelays : gset string;
  seenIds : gset string;
  buffer : list Event;
  localVotes : gmap string Z;
  (** the children of the feed element, first child first *)
  feed : list Event;
  (** every call of [renderNote], oldest first *)
  rendered : list Event;
  (** every call of [toast]: message and type, oldest first *)
  toasts : list (string * string);
  (** every call of [alert], oldest first *)
  alerts : list string
}.

Definition setFeed (c : Client) (feed' rendered' : list Event) : Client :=
  mkClient (privateKey c) (publicKey c) (relays c) (connectedRelays c)
    (seenIds c) (buffer c) (localVotes c) feed' rendered' (toasts c) (alerts c).

Definition setBuffer (c : Client) (seen' : gset string) (buffer' : list Event)
  : Client :=
  mkClient (privateKey c) (publicKey c) (relays c) (connectedRelays c)
    seen' buffer' (localVotes c) (feed c) (rendered c) (toasts c) (alerts c).

Definition setLocalVotes (c : Client) (votes' : gmap string Z) : Client :=
  mkClient (privateKey c) (publicKey c) (relays c) (connectedRelays c)
    (seenIds c) (buffer c) votes' (feed c) (rendered c) (toasts c) (alerts c).

Definition toast (c : Client) (message type : string) : Client :=
  mkClient (privateKey c) (publicKey c) (relays c) (connectedRelays c)
    (seenIds c) (buffer c) (localVotes c) (feed c) (rendered c)
    (toasts c ++ [(message, type)]) (alerts c).

Definition alert (c : Client) (message : string) : Client :=
  mkClient (privateKey c) (publicKey c) (relays c) (connectedRelays c)
    (seenIds c) (buffer c) (localVotes c) (feed c) (rendered c)
    (toasts c) (alerts c ++ [message]).

(** *** Rendering *)

(** [renderNote(ev, { toTop })]: the new element goes before the first child
    when [toTop] and the feed has one, and is appended otherwise; the feed is
    then cut to its first 200 children.  The score that [renderNote] asks for
    afterwards only fills in the text of the note and is not modelled. *)
Definition renderNote (c : Client) (ev : Event) (toTop : bool) : Client :=
  let inserted :=
    if toTop && negb (bool_decide (feed c = [])) then ev :: feed c
    else feed c ++ [ev] in
  setFeed c (take 200 inserted) (rendered c ++ [ev]).

(** *** The feed buffer *)

(** [bufferIncoming(ev)]; [ev?.id] of a missing event is [undefined]. *)
Definition bufferIncoming (c : Client) (ev : option Event) : Client :=
  match ev, ev ≫= id with
  | Some ev, Some eid =>
    if negb (truthy (Some eid)) || bool_decide (eid ∈ seenIds c) then c
    else setBuffer c ({[eid]} ∪ seenIds c) (buffer c ++ [ev])
  | _, _ => c
  end.

Definition pendingCount (c : Client) : Z := Z.of_nat (length (buffer c)).

(** The comparator of the flush:
    [(a, b) => (b.created_at || 0) - (a.created_at || 0)]. *)
Definition compareFn (a b : Event) : Z :=
  or0 (created_at b) - or0 (created_at a).

(** [Array.prototype.sort(compareFn)].  The sort is stable (ECMAScript 2019):
    [a] ends before [b] when [compareFn a b < 0], after it when
    [compareFn a b > 0], and in the original order when it is [0].  With a
    consistent comparator that fixes the result, here computed by
    insertion. *)
Fixpoint sortInsert (cmp : Event → Event → Z) (x : Event) (l : list Event)
  : list Event :=
  match l with
  | [] => [x]
  | y :: l' =>
    if cmp x y <=? 0 then x :: y :: l' else y :: sortInsert cmp x l'
  end.

Definition arraySort (cmp : Event → Event → Z) (l : list Event) : list Event :=
  foldr (sortInsert cmp) [] l.

(** [flushBufferToFeed()]. *)
Definition flushBufferToFeed (c : Client) : Client :=
  if bool_decide (buffer c = []) then c
  else
    let sorted := arraySort compareFn (buffer c) in
    let c' := foldl (λ c ev, renderNote c ev true) c sorted in
    setBuffer c' (seenIds c') [].

(** *** Publishing *)

(** [this.relays.map(r => r.status === 1 && r.publish(ev))]: the callback
    runs relay by relay; a [publish] that throws ends the [map] with that
    exception ([None]).  Otherwise the array holds [false] for a relay that
    is not connected and a promise for the others. *)
Fixpoint mapPublish (rs : list Relay) (ev : Event)
  : option (list (option bool)) :=
  match rs with
  | [] => Some []
  | r :: rs' =>
    if status r =? 1 then
      match publish r ev with
      | PublishThrows => None
      | PublishSettles accepted =>
        (λ out, Some accepted :: out) <$> mapPublish rs' ev
      end
    else (λ out, None :: out) <$> mapPublish rs' ev
  end.

(** The relays that accepted [ev] in a broadcast. *)
Definition acceptedBy (rs : list Relay) (ev : Event) : list Relay :=
  List.filter (λ r, (status r =? 1) &&
                 match publish r ev with
                 | PublishSettles true => true
                 | _ => false
                 end) rs.

Section Actions.

Variable getPublicKey : string → string.
Variable getEventHash : Event → string.
Variable getSignature : Event → string → string.

Abbreviation finishEvent := (finishEvent getPublicKey getEventHash getSignature).
Abbreviation mineAndFinish :=
  (mineAndFinish getPublicKey getEventHash getSignature).

(** [publishNote()], with the trimmed text of the note field and the clock
    reading [Math.floor(Date.now()/1000)] (the toast texts are kept without
    their emoji).  Signing without a key throws inside the [try].
    [Promise.allSettled] never rejects, so the [catch] is reached only by an
    exception of [finishEvent] or of the [map]. *)
Definition publishNote (c : Client) (content : string) (now : Z) : Client :=
  if bool_decide (content = "") then alert c "Enter content"
  else if bool_decide (size (connectedRelays c) = 0%nat)
  then alert c "Not connected to any relays"
  else
    match privateKey c with
    | None => toast c "Failed to publish" "error"
    | Some sk =>
      let ev := finishEvent
                  (mkEvent KIND_NOTE (Some now) [] content None None None) sk in
      let c := renderNote c ev true in
      match mapPublish (relays c) ev with
      | None => toast c "Failed to publish" "error"
      | Some _ => toast c "Note published!" "success"
      end
    end.

(** The toggle of [sendVote]: [current = this.localVotes[eid] || 0], and
    the same sign again clears the vote. *)
Definition nextVoteSign (c : Client) (eventIdHex : string) (sign : Z) : Z :=
  let current := or0 (localVotes c !! eventIdHex) in
  if bool_decide (current = sign) then 0 else sign.

Definition voteEvent (authorHex eventIdHex : string) (finalSign now : Z)
  : Event :=
  mkEvent KIND_KARMA_VOTE (Some now)
    [["p"; authorHex]; ["e"; eventIdHex]; ["v"; pretty finalSign];
     ["client"; "nostr_karma_postvote"]]
    "" None None None.

(** [sendVote(authorHex, eventIdHex, sign)] at clock reading [now].  The
    styling and the score refresh after the ledger update touch only the
    page. *)
Definition sendVote (c : Client) (authorHex eventIdHex : string)
    (sign now : Z) : Client :=
  if negb (truthy (privateKey c)) || negb (truthy (publicKey c))
  then toast c "No keys loaded" "error"
  else
    match privateKey c with
    | None => toast c "No keys loaded" "error"
    | Some sk =>
      let finalSign := nextVoteSign c eventIdHex sign in
      let unsigned := voteEvent authorHex eventIdHex finalSign now in
      let ev := mineAndFinish unsigned sk 8 15000 in
      match mapPublish (relays c) ev with
      | Some _ =>
        let c := setLocalVotes c (<[eventIdHex := finalSign]> (localVotes c)) in
        if bool_decide (finalSign = 0) then toast c "Vote cleared" "success"
        else toast c (if bool_decide (finalSign > 0) then "Upvoted"
                      else "Downvoted") "success"
      | None => toast c "Vote failed" "error"
      end
    end.

(** The event that [sendVote] hands to the relays. *)
Definition sentVote (c : Client) (sk authorHex eventIdHex : string)
    (sign now : Z) : Event :=
  mineAndFinish
    (voteEvent authorHex eventIdHex (nextVoteSign c eventIdHex sign) now)
    sk 8 15000.

End Actions.

(** ** Notions used to state the properties of the collection *)

(** What a relay adds to the merged results: its collection, or nothing when
    the collection is rejected. *)
Definition relayContribution (eventIdHex : string) (timeoutMs : Z)
    (relay : Relay) : list Event :=
  match collectFromRelay relay (voteFilters eventIdHex) timeoutMs with
  | Fulfilled events => events
  | Rejected => []
  end.

(** Every entry of [out] sits under the key of its event's id. *)
Definition keyedById (out : Obj) : Prop :=
  ∀ k ev, (k, ev) ∈ out → k = propKey (id ev).

(** How many events of the list carry the id [i]. *)
Definition countId (i : option string) (l : list Event) : nat :=
  length (filter (λ ev, id ev = i) l).

(** The list without the later repetitions of its events. *)
Definition firstOccurrences (l : list Event) : list Event :=
  foldl (λ acc ev, if bool_decide (ev ∈ acc) then acc else acc ++ [ev]) [] l.

(** ** Notions used to state the properties of the feed buffer *)

(** The timestamp the flush sorts by. *)
Definition sortKey (ev : Event) : Z := or0 (created_at ev).

(** [a] may stand before [b] in a feed sorted newest first. *)
Definition notOlder (a b : Event) : Prop := sortKey b ≤ sortKey a.

(** The events of the list whose timestamp is [t], in the order of the list. *)
Definition withKey (t : Z) (l : list Event) : list Event :=
  filter (λ ev, sortKey ev = t) l.

(** Every pending event has an id, and the id is in [seenIds]. *)
Definition bufferSeen (c : Client) : Prop :=
  ∀ ev, ev ∈ buffer c → ∃ i, id ev = Some i ∧ i ∈ seenIds c.

(** ** Sample data

    Concrete events and relays on which the definitions are evaluated. *)

Definition sampleVote (voter eid : string) (t : Z) (v : string) : Event :=
  mkEvent KIND_KARMA_VOTE (Some t)
    [["p"; "author"]; ["e"; "target"]; ["v"; v]] "" (Some voter) (Some eid)
    (Some "sig").

(** alice votes +1 at 10 and -1 at 20; bob votes +1 at 5. *)
Definition aliceUp10 : Event := sampleVote "alice" "a1" 10 "1".
Definition aliceDown20 : Event := sampleVote "alice" "a2" 20 "-1".
Definition bobUp5 : Event := sampleVote "bob" "b1" 5 "1".

(** A second vote of alice at 10, with the other sign. *)
Definition aliceDown10 : Event := sampleVote "alice" "a3" 10 "-1".

(** An event with a valid [v] tag and neither a [p] nor an [e] tag. *)
Definition voteOnlyV : Event :=
  mkEvent KIND_KARMA_VOTE (Some 10) [["v"; "1"]] "" (Some "alice") (Some "a4")
    (Some "sig").

(** An event whose [v] tag holds no sign. *)
Definition voteBadSign : Event := sampleVote "alice" "a5" 30 "2".

(** A connected relay that delivers [evs] 100 ms after the subscription and
    accepts what is published to it; a relay whose calls throw; a connected
    relay that never emits and refuses what is published; a relay that is
    not connected. *)
Definition relayWith (name : string) (evs : list Event) : Relay :=
  mkRelay name 1 (λ _, Delivers ((λ ev, (100, ev)) <$> evs))
    (λ _, PublishSettles true).

Definition relayBroken : Relay :=
  mkRelay "wss://broken" 1 (λ _, SubThrows) (λ _, PublishThrows).

Definition relaySilent : Relay :=
  mkRelay "wss://silent" 1 (λ _, Delivers []) (λ _, PublishSettles false).

Definition relayOffline : Relay :=
  mkRelay "wss://offline" 3 (λ _, Delivers []) (λ _, PublishSettles false).

(** A connected relay that delivers one vote after 100 ms and another after
    2000 ms. *)
Definition relayTimed : Relay :=
  mkRelay "wss://timed" 1
    (λ _, Delivers [(100, aliceUp10); (2000, aliceDown20)])
    (λ _, PublishSettles true).

(** Notes for the feed: three with the timestamps 100, 300 and 200, and a
    second note with the timestamp 100. *)
Definition sampleNote (eid : string) (t : Z) : Event :=
  mkEvent KIND_NOTE (Some t) [] "note" (Some "carol") (Some eid) (Some "sig").

Definition note100 : Event := sampleNote "n1" 100.
Definition note300 : Event := sampleNote "n3" 300.
Definition note200 : Event := sampleNote "n2" 200.
Definition note100' : Event := sampleNote "n4" 100.

(** A client with a key pair, connected to one relay, that has seen
    nothing. *)
Definition freshClient : Client :=
  mkClient (Some "sk") (Some "pk") [relayWith "wss://a" []] {["wss://a"]}
    ∅ [] ∅ [] [] [] [].

(** Stand-ins for the cryptography.  The digest names the payload, and it
    starts with two zeros exactly when the event carries the tag
    [['nonce', '3']], so that mining at 8 bits succeeds at the fourth
    attempt. *)
Definition toyPublicKey (sk : string) : string := "pk-" +:+ sk.
Definition toyEventHash (ev : Event) : string :=
  (if bool_decide (["nonce"; "3"] ∈ tags ev) then "00" else "ff") +:+ "-"
    +:+ pretty (kind ev) +:+ "-" +:+ pretty (or0 (created_at ev)) +:+ "-"
    +:+ content ev.
Definition toySignature (ev : Event) (sk : string) : string := "sig-" +:+ sk.

(** Two notes with one timestamp, buffered in the two possible orders. *)
Definition clientTieAB : Client :=
  bufferIncoming (bufferIncoming freshClient (Some note100)) (Some note100').
Definition clientTieBA : Client :=
  bufferIncoming (bufferIncoming freshClient (Some note100')) (Some note100).

(** Three notes buffered with the timestamps 100, 300, 200. *)
Definition clientThree : Client :=
  bufferIncoming
    (bufferIncoming (bufferIncoming freshClient (Some note100)) (Some note300))
    (Some note200).
Definition clientThree' : Client :=
  bufferIncoming
    (bufferIncoming (bufferIncoming freshClient (Some note300)) (Some note200))
    (Some note100).

(** The note that [publishNote] signs for the text "hello" at time 1000. *)
Definition helloNote : Event :=
  finishEvent toyPublicKey toyEventHash toySignature
    (mkEvent KIND_NOTE (Some 1000) [] "hello" None None None) "sk".

(** The payload of an upvote of the note "target" at time 1000. *)
Definition upvotePayload : Event := voteEvent "author" "target" 1 1000.

(** Clients whose relays accept nothing: one refuses and one is not
    connected; and a client whose relay throws on [publish]. *)
Definition clientNoTaker : Client :=
  mkClient (Some "sk") (Some "pk") [relaySilent; relayOffline] {["wss://silent"]}
    ∅ [] ∅ [] [] [] [].

Definition clientBroken : Client :=
  mkClient (Some "sk") (Some "pk") [relayBroken] {["wss://broken"]}
    ∅ [] ∅ [] [] [] [].

(** The vote event [sendVote] broadcasts for an upvote of "target" by a
    client that has not voted on it. *)
Definition upvoteEvent : Event :=
  mineAndFinish toyPublicKey toyEventHash toySignature upvotePayload "sk" 8 15000.

(** ** Further parts of the client *)

(** *** Keys: [generateNewKeys], [loadOrGenerateKeys] *)

Definition setKeys (c : Client) (sk pk : string) : Client :=
  mkClient (Some sk) (Some pk) (relays c) (connectedRelays c)
    (seenIds c) (buffer c) (localVotes c) (feed c) (rendered c) (toasts c)
    (alerts c).

(** The key under which the private key is kept in [localStorage]. *)
Definition STORAGE_KEY : string := "nostr-private-key".

Section Keys.

Variable getPublicKey : string → string.

(** [generateNewKeys()], with [localStorage] as a map passed along; [fresh]
    is what [generatePrivateKey()] returns at this call.  The key display
    that follows only fills a field of the page, and the text of the
    notification is kept without its emoji. *)
Definition generateNewKeys (c : Client) (storage : gmap string string)
    (fresh : string) : Client * gmap string string :=
  let c := setKeys c fresh (getPublicKey fresh) in
  let storage := <[STORAGE_KEY := fresh]> storage in
  (toast c "New keys generated!" "success", storage).

(** [loadOrGenerateKeys()]: a saved key is used when [getItem] returns a
    non-empty string.  [getPublicKey] is a function here: the model covers
    saved strings that the library takes as a key, and not the exception it
    raises on another string. *)
Definition loadOrGenerateKeys (c : Client) (storage : gmap string string)
    (fresh : string) : Client * gmap string string :=
  let saved := storage !! STORAGE_KEY in
  if truthy saved then
    match saved with
    | Some saved => (setKeys c saved (getPublicKey saved), storage)
    | None => generateNewKeys c storage fresh
    end
  else generateNewKeys c storage fresh.

End Keys.

(** *** Notions used to state further properties of the resolution *)

Section ScoreNotions.

Variable Number : string → number.

(** The change of the score when one more event is resolved on top of the
    entries [m]. *)
Definition scoreDelta (m : gmap string Latest) (ev : Event) : Z :=
  match voteTriple Number ev with
  | None => 0
  | Some (v, t, s) =>
    match m !! v with
    | None => s
    | Some prev => if t >? prev.(ts) then s - prev.(sign) else 0
    end
  end.

(** No voter has a vote in both lists. *)
Definition disjointVoters (l1 l2 : list Event) : Prop :=
  ∀ e1 e2 v, e1 ∈ l1 → e2 ∈ l2 →
             voterOf Number e1 = Some v → voterOf Number e2 ≠ Some v.

End ScoreNotions.

(** *** Notions used to state further properties of the collection *)

(** The property key under which [collectFromRelay] files an event. *)
Definition idKey (ev : Event) : string := propKey (id ev).

(** The events that arrive before the timer fires, in order of arrival. *)
Definition inTime (timeoutMs : Z) (arrivals : list (Z * Event)) : list Event :=
  (filter (λ a, a.1 < timeoutMs) arrivals).*2.

(** [ev] stands in [evs] and no later event of [evs] has its key. *)
Definition lastWithKey (evs : list Event) (ev : Event) : Prop :=
  ∃ l1 l2, evs = l1 ++ ev :: l2 ∧ ∀ e', e' ∈ l2 → idKey e' ≠ idKey ev.

(** [this.relays.push(relay)], as [connectToRelays] does for a relay that
    connected. *)
Definition addRelay (c : Client) (relay : Relay) : Client :=
  mkClient (privateKey c) (publicKey c) (relays c ++ [relay])
    (connectedRelays c) (seenIds c) (buffer c) (localVotes c) (feed c)
    (rendered c) (toasts c) (alerts c).

(** *** The score of a post: [updateScoreForPost] *)

(** The text of the score element: [score > 0 ? `+${score}` : `${score}`]. *)
Definition scoreLabel (score : Z) : string :=
  if score >? 0 then "+" +:+ pretty score else pretty score.

(** The text [updateScoreForPost(eventId)] leaves in the score element of
    the post, when the page has one: the votes are fetched with the default
    timeout of [fetchVotesForPost]. *)
Definition updateScoreForPost (Number : string → number) (c : Client)
    (eventId : string) : string :=
  let votes := fetchVotesForPost (relays c) eventId 4000 in
  let score := computeScore Number votes in
  scoreLabel score.

(** *** The subscriptions: [subscribeNotes], [fetchRecentBurst] *)

Definition noteFilters (limit : Z) : list Filter :=
  [mkFilter [KIND_NOTE] [] limit].

(** [subscribeNotes(relay)]: every event of the live subscription goes to
    [bufferIncoming]; a [relay.sub] that throws leaves the client as it
    is. *)
Definition subscribeNotes (c : Client) (relay : Relay) : Client :=
  match sub relay (noteFilters 0) with
  | SubThrows => c
  | Delivers arrivals =>
    foldl (λ c '(t, ev), bufferIncoming c (Some ev)) c arrivals
  end.

(** [fetchRecentBurst(relay)]: the same for the one-shot subscription, which
    is closed after 2500 ms. *)
Definition fetchRecentBurst (c : Client) (relay : Relay) : Client :=
  match sub relay (noteFilters 40) with
  | SubThrows => c
  | Delivers arrivals =>
    foldl (λ c '(t, ev), if t <? 2500 then bufferIncoming c (Some ev) else c)
          c arrivals
  end.

(** A run of the two handlers that touch the buffer: an event handed to
    [bufferIncoming] by a subscription, or a flush (the "show new posts"
    button, or a tick of [startAutoFlush], which flushes a non-empty
    buffer). *)
Inductive FeedOp :=
  | Incoming (ev : option Event)
  | Flush.

Definition feedStep (c : Client) (op : FeedOp) : Client :=
  match op with
  | Incoming ev => bufferIncoming c ev
  | Flush => flushBufferToFeed c
  end.

Definition runFeed (c : Client) (ops : list FeedOp) : Client :=
  foldl feedStep c ops.

(** The notes rendered or pending carry pairwise distinct ids, all of them
    in [seenIds]. *)
Definition feedInv (c : Client) : Prop :=
  NoDup (id <$> (rendered c ++ buffer c)) ∧
  ∀ ev, ev ∈ rendered c ++ buffer c → ∃ i, id ev = Some i ∧ i ∈ seenIds c.

(** *** The vote buttons: the click handler of [bindUI] *)

(** The [data-sign], [data-eid] and [data-author] attributes of the button
    that was clicked. *)
Record VoteButton := mkVoteButton {
  data_sign : option string;
  data_eid : option string;
  data_author : option string
}.

(** Every entry of the ledger is -1, 0 or 1. *)
Definition ledgerInv (c : Client) : Prop :=
  ∀ k z, localVotes c !! k = Some z → z = -1 ∨ z = 0 ∨ z = 1.

Section Clicks.

Variable Number : string → number.
Variable getPublicKey : string → string.
Variable getEventHash : Event → string.
Variable getSignature : Event → string → string.

(** The listener on the feed; [btn] is [e.target.closest('.vote-btn')]. *)
Definition onFeedClick (c : Client) (btn : option VoteButton) (now : Z)
  : Client :=
  match btn with
  | None => c
  | Some btn =>
    let sign := NumberOf Number (data_sign btn) in
    let eid := data_eid btn in
    let author := data_author btn in
    match sign, eid, author with
    | Int sign, Some eid, Some author =>
      if negb (truthy (Some eid)) || negb (truthy (Some author)) ||
         negb (includes [1; -1] sign) then c
      else sendVote getPublicKey getEventHash getSignature c author eid sign now
    | _, _, _ => c
    end
  end.

End Clicks.

(** *** The attempts of the miner *)

Section Attempts.

Variable getPublicKey : string → string.
Variable getEventHash : Event → string.
Variable getSignature : Event → string → string.

(** The event signed at the attempt with the given nonce. *)
Definition attempt (unsigned : Event) (sk : string) (nonce : Z) : Event :=
  finishEvent getPublicKey getEventHash getSignature
    (setTags unsigned (tags unsigned ++ [["nonce"; pretty nonce]])) sk.

(** The number of leading zero digits asked for. *)
Definition nibblesOf (powBits : Z) : Z := Z.max 0 (powBits / 4).

(** The test that ends the loop. *)
Definition meetsTarget (powBits : Z) (ev : Event) : bool :=
  (nibblesOf powBits =? 0) ||
  startsWith (id ev) (repeatStr "0" (Z.to_nat (nibblesOf powBits))).

End Attempts.

(** ** The first client, [src/main.js] *)

(** [addEventToFeed(event)]: the note goes on top, and the feed is cut to 50
    notes.  [subscribeToFeed] calls it for every event a relay hands over. *)
Definition addEventToFeed (feed : list Event) (event : Event) : list Event :=
  take 50 (event :: feed).

(** * Properties *)

(** ** Vote resolution *)

Section ScoreProperties.

Variable Number : string → number.


(** The loop body in terms of the decoded triple. *)
Lemma scoreStep_voteTriple (m : gmap string Latest) (ev : Event) :
  scoreStep Number m ev =
  match voteTriple Number ev with
  | None => m
  | Some (voter, t, s) =>
    match m !! voter with
    | None => <[voter := mkLatest t s]> m
    | Some prev =>
      if t >? prev.(ts) then <[voter := mkLatest t s]> m else m
    end
  end.
Proof.
  unfold scoreStep, voteTriple.
  repeat case_match; simplify_eq/=; try done; congruence.
Qed.

Lemma latestByVoter_snoc (l : list Event) (ev : Event) :
  latestByVoter Number (l ++ [ev]) = scoreStep Number (latestByVoter Number l) ev.
Proof. unfold latestByVoter. by rewrite foldl_app. Qed.

(** A step changes at most the entry of the event's voter. *)
Lemma scoreStep_lookup_ne (m : gmap string Latest) (ev : Event) (v : string) :
  voterOf Number ev ≠ Some v → scoreStep Number m ev !! v = m !! v.
Proof.
  rewrite scoreStep_voteTriple. unfold voterOf.
  destruct (voteTriple Number ev) as [[[voter t] s]|]; simpl; [|done].
  intros Hne. assert (voter ≠ v) by congruence.
  destruct (m !! voter) as [prev|]; [destruct (t >? ts prev)|];
    by rewrite ?lookup_insert_ne.
Qed.

(** A step on a vote of [v] leaves an entry for [v] whose timestamp is
    that of the vote or a later one, and never lowers a timestamp. *)
Lemma scoreStep_lookup_eq (m : gmap string Latest) (ev : Event)
    (v : string) (t s : Z) :
  voteTriple Number ev = Some (v, t, s) →
  match m !! v with
  | None => scoreStep Number m ev !! v = Some (mkLatest t s)
  | Some prev =>
    if t >? prev.(ts) then scoreStep Number m ev !! v = Some (mkLatest t s)
    else scoreStep Number m ev !! v = Some prev
  end.
Proof.
  intros He. rewrite scoreStep_voteTriple, He.
  destruct (m !! v) as [prev|] eqn:Hprev; [destruct (t >? ts prev)|];
    by rewrite ?lookup_insert_eq.
Qed.

(** A voter without an entry has cast no vote. *)
Lemma latestByVoter_None_inv (l : list Event) (v : string) (e : Event) :
  latestByVoter Number l !! v = None → e ∈ l → voterOf Number e ≠ Some v.
Proof.
  induction l as [|ev l IH] using rev_ind; [set_solver|].
  rewrite latestByVoter_snoc. intros Hnone Hin.
  destruct (decide (voterOf Number ev = Some v)) as [Hev|Hev].
  - exfalso. unfold voterOf in Hev.
    destruct (voteTriple Number ev) as [[[voter t] s]|] eqn:Htr; simplify_eq/=.
    pose proof (scoreStep_lookup_eq (latestByVoter Number l) ev v t s Htr) as H.
    destruct (latestByVoter Number l !! v) as [prev|]; [destruct (t >? ts prev)|];
      congruence.
  - rewrite scoreStep_lookup_ne in Hnone by done.
    apply elem_of_app in Hin as [Hin|Hin]; [by apply IH|].
    by apply list_elem_of_singleton in Hin as ->.
Qed.

(** The retained entry of a voter comes from one of the voter's votes. *)
Lemma latestByVoter_Some_inv (l : list Event) (v : string) (L : Latest) :
  latestByVoter Number l !! v = Some L →
  ∃ e, e ∈ l ∧ voteTriple Number e = Some (v, L.(ts), L.(sign)).
Proof.
  induction l as [|ev l IH] using rev_ind; [done|].
  rewrite latestByVoter_snoc. intros HL.
  assert (Hold : latestByVoter Number l !! v = Some L →
                 ∃ e, e ∈ l ++ [ev] ∧ voteTriple Number e = Some (v, ts L, sign L)).
  { intros H. destruct (IH H) as (e & ? & ?). exists e. split; [apply elem_of_app; by left|done]. }
  destruct (decide (voterOf Number ev = Some v)) as [Hev|Hev].
  - unfold voterOf in Hev.
    destruct (voteTriple Number ev) as [[[voter t] s]|] eqn:Htr; simplify_eq/=.
    pose proof (scoreStep_lookup_eq (latestByVoter Number l) ev v t s Htr) as H.
    destruct (latestByVoter Number l !! v) as [prev|] eqn:Hprev;
      [destruct (t >? ts prev)|]; rewrite H in HL; simplify_eq.
    + exists ev. split; [apply elem_of_app; right; apply list_elem_of_singleton|]; done.
    + by apply Hold.
    + exists ev. split; [apply elem_of_app; right; apply list_elem_of_singleton|]; done.
  - rewrite scoreStep_lookup_ne in HL by done. by apply Hold.
Qed.

(** No vote of the voter has a later timestamp than the retained entry. *)
Lemma latestByVoter_Some_max (l : list Event) (v : string) (L : Latest)
    (e : Event) (t s : Z) :
  latestByVoter Number l !! v = Some L → e ∈ l →
  voteTriple Number e = Some (v, t, s) → t ≤ L.(ts).
Proof.
  revert L. induction l as [|ev l IH] using rev_ind; intros L; [set_solver|].
  rewrite latestByVoter_snoc. intros HL Hin He.
  destruct (decide (voterOf Number ev = Some v)) as [Hev|Hev].
  - unfold voterOf in Hev.
    destruct (voteTriple Number ev) as [[[voter t'] s']|] eqn:Htr; simplify_eq/=.
    pose proof (scoreStep_lookup_eq (latestByVoter Number l) ev v t' s' Htr) as H.
    apply elem_of_app in Hin as [Hin|Hin].
    + destruct (latestByVoter Number l !! v) as [prev|] eqn:Hprev.
      * specialize (IH prev eq_refl Hin He).
        destruct (t' >? ts prev) eqn:Hgt; rewrite H in HL; simplify_eq/=; lia.
      * exfalso. eapply latestByVoter_None_inv; [exact Hprev|exact Hin|].
        unfold voterOf. by rewrite He.
    + apply list_elem_of_singleton in Hin as ->. simplify_eq.
      destruct (latestByVoter Number l !! v) as [prev|] eqn:Hprev;
        [destruct (t >? ts prev) eqn:Hgt|]; rewrite H in HL; simplify_eq/=; lia.
  - rewrite scoreStep_lookup_ne in HL by done.
    apply elem_of_app in Hin as [Hin|Hin]; [by eapply IH|].
    apply list_elem_of_singleton in Hin as ->.
    exfalso. apply Hev. unfold voterOf. by rewrite He.
Qed.

(** *** Removing a voter *)

Lemma scoreStep_delete_ne (m : gmap string Latest) (ev : Event) (v : string) :
  voterOf Number ev ≠ Some v →
  scoreStep Number (delete v m) ev = delete v (scoreStep Number m ev).
Proof.
  rewrite !scoreStep_voteTriple. unfold voterOf.
  destruct (voteTriple Number ev) as [[[voter t] s]|]; simpl; [|done].
  intros Hne. assert (v ≠ voter) by congruence.
  rewrite lookup_delete_ne by done.
  destruct (m !! voter) as [prev|]; [destruct (t >? ts prev)|];
    by rewrite ?delete_insert_ne.
Qed.

Lemma scoreStep_delete_eq (m : gmap string Latest) (ev : Event) (v : string) :
  voterOf Number ev = Some v →
  delete v (scoreStep Number m ev) = delete v m.
Proof.
  rewrite scoreStep_voteTriple. unfold voterOf.
  destruct (voteTriple Number ev) as [[[voter t] s]|]; simpl; [|done].
  intros [= ->].
  destruct (m !! v) as [prev|]; [destruct (t >? ts prev)|];
    by rewrite ?delete_insert_eq.
Qed.

Lemma latestByVoter_withoutVoter (l : list Event) (v : string) :
  latestByVoter Number (withoutVoter Number v l) =
  delete v (latestByVoter Number l).
Proof.
  unfold withoutVoter.
  induction l as [|ev l IH] using rev_ind.
  - unfold latestByVoter. simpl. by rewrite delete_empty.
  - rewrite filter_app, latestByVoter_snoc.
    destruct (decide (voterOf Number ev = Some v)) as [Hev|Hev].
    + rewrite filter_cons_False, filter_nil, app_nil_r by (by intros ?).
      by rewrite scoreStep_delete_eq.
    + rewrite filter_cons_True, filter_nil by done.
      by rewrite latestByVoter_snoc, IH, scoreStep_delete_ne.
Qed.

Lemma sumSigns_delete (m : gmap string Latest) (v : string) (L : Latest) :
  m !! v = Some L → sumSigns m = L.(sign) + sumSigns (delete v m).
Proof.
  intros Hv. unfold sumSigns.
  rewrite (map_fold_delete_L _ _ v L m); [lia| |done].
  intros; lia.
Qed.

(** The score splits into the retained sign of a voter and the score of
    the other voters' events. *)
Lemma computeScore_split (l : list Event) (v : string) :
  computeScore Number l =
  match latestByVoter Number l !! v with
  | Some L => L.(sign)
  | None => 0
  end + computeScore Number (withoutVoter Number v l).
Proof.
  unfold computeScore. rewrite latestByVoter_withoutVoter.
  destruct (latestByVoter Number l !! v) as [L|] eqn:Hv.
  - by apply sumSigns_delete.
  - by rewrite delete_id.
Qed.

(** *** Latest wins *)

Lemma latestByVoter_latest (l : list Event) (v : string) (e : Event) (t s : Z) :
  e ∈ l → voteTriple Number e = Some (v, t, s) →
  (∀ e' t' s', e' ∈ l → voteTriple Number e' = Some (v, t', s') →
               t' < t ∨ (t' = t ∧ s' = s)) →
  latestByVoter Number l !! v = Some (mkLatest t s).
Proof.
  intros Hin He Hmax.
  destruct (latestByVoter Number l !! v) as [[t0 s0]|] eqn:Hv.
  - destruct (latestByVoter_Some_inv _ _ _ Hv) as (e0 & Hin0 & He0).
    pose proof (latestByVoter_Some_max _ _ _ _ _ _ Hv Hin He) as Hle.
    simpl in *. destruct (Hmax _ _ _ Hin0 He0) as [?|[-> ->]]; [lia|done].
  - exfalso. eapply latestByVoter_None_inv; [exact Hv|exact Hin|].
    unfold voterOf. by rewrite He.
Qed.

(** *** Events that are skipped *)

Lemma scoreStep_skip (m : gmap string Latest) (ev : Event) :
  voteTriple Number ev = None → scoreStep Number m ev = m.
Proof. intros H. by rewrite scoreStep_voteTriple, H. Qed.

Lemma computeScore_skip (l1 l2 : list Event) (ev : Event) :
  voteTriple Number ev = None →
  computeScore Number (l1 ++ ev :: l2) = computeScore Number (l1 ++ l2).
Proof.
  intros H. unfold computeScore, latestByVoter.
  rewrite !foldl_app. simpl. by rewrite scoreStep_skip.
Qed.

Lemma find_filter_same {A} (P : A → bool) (l : list A) :
  List.find P (List.filter P l) = List.find P l.
Proof.
  induction l as [|x l IH]; [done|]. simpl.
  destruct (P x) eqn:Hx; simpl; by rewrite ?Hx.
Qed.

Lemma voteTriple_onlySignTags (ev : Event) :
  voteTriple Number (onlySignTags ev) = voteTriple Number ev.
Proof. unfold voteTriple, onlySignTags. simpl. by rewrite find_filter_same. Qed.

(** *** Duplicates and reordering *)

Lemma scoreStep_duplicate (l : list Event) (e : Event) :
  e ∈ l → scoreStep Number (latestByVoter Number l) e = latestByVoter Number l.
Proof.
  intros Hin. rewrite scoreStep_voteTriple.
  destruct (voteTriple Number e) as [[[v t] s]|] eqn:He; [|done].
  destruct (latestByVoter Number l !! v) as [L|] eqn:Hv.
  - pose proof (latestByVoter_Some_max _ _ _ _ _ _ Hv Hin He).
    by destruct (Z.gtb_spec t (ts L)); [lia|].
  - exfalso. eapply latestByVoter_None_inv; [exact Hv|exact Hin|].
    unfold voterOf. by rewrite He.
Qed.

Lemma conflictingTie_false (e1 e2 : Event) (v : string) (t s1 s2 : Z) :
  conflictingTie Number e1 e2 = false →
  voteTriple Number e1 = Some (v, t, s1) →
  voteTriple Number e2 = Some (v, t, s2) → s1 = s2.
Proof.
  unfold conflictingTie. intros H H1 H2. rewrite H1, H2 in H.
  rewrite bool_decide_eq_true_2, Z.eqb_refl in H by done. simpl in H.
  apply negb_false_iff, Z.eqb_eq in H. done.
Qed.

Lemma latestByVoter_Permutation (l l' : list Event) :
  l ≡ₚ l' → tieFree Number l →
  latestByVoter Number l = latestByVoter Number l'.
Proof.
  intros Hperm Hfree. apply map_eq. intros v.
  destruct (latestByVoter Number l !! v) as [[t s]|] eqn:Hl;
    destruct (latestByVoter Number l' !! v) as [[t' s']|] eqn:Hl'; [| | |done].
  - destruct (latestByVoter_Some_inv _ _ _ Hl) as (e & Hin & He).
    destruct (latestByVoter_Some_inv _ _ _ Hl') as (e' & Hin' & He').
    simpl in *.
    assert (Hin2 : e' ∈ l) by by rewrite Hperm.
    assert (Hin3 : e ∈ l') by by rewrite <- Hperm.
    pose proof (latestByVoter_Some_max _ _ _ _ _ _ Hl Hin2 He').
    pose proof (latestByVoter_Some_max _ _ _ _ _ _ Hl' Hin3 He).
    simpl in *. assert (t = t') as -> by lia.
    by rewrite (conflictingTie_false e e' v t' s s' (Hfree _ _ Hin Hin2) He He').
  - destruct (latestByVoter_Some_inv _ _ _ Hl) as (e & Hin & He).
    exfalso. eapply latestByVoter_None_inv; [exact Hl'| by rewrite <- Hperm |].
    unfold voterOf. by rewrite He.
  - destruct (latestByVoter_Some_inv _ _ _ Hl') as (e & Hin & He).
    exfalso. eapply latestByVoter_None_inv; [exact Hl| by rewrite Hperm |].
    unfold voterOf. by rewrite He.
Qed.

(** *** The claims on [computeScore] *)

(** C1: for every collection of vote events and every voter, the
    resolution retains for that voter only the vote with the greatest
    timestamp.  The entry kept for a voter is taken from one of the voter's
    votes, no vote of the voter is later than it, and it is all the voter
    adds to the score of the other voters' events; a voter without a vote
    has no entry.  When [e] is a vote of [voter] and every vote of [voter]
    in the input is older than [e] (or carries [e]'s timestamp and sign),
    the entry is [e]'s.  In particular a voter whose votes are +1 at
    timestamp 10 and -1 at timestamp 20 contributes exactly -1. *)
Theorem computeScore_latest_wins :
  (∀ (votes : list Event) (voter : string),
     match latestByVoter Number votes !! voter with
     | Some L =>
       (∃ e, e ∈ votes ∧ voteTriple Number e = Some (voter, L.(ts), L.(sign))) ∧
       (∀ e t s, e ∈ votes → voteTriple Number e = Some (voter, t, s) →
                 t ≤ L.(ts)) ∧
       computeScore Number votes =
       L.(sign) + computeScore Number (withoutVoter Number voter votes)
     | None =>
       (∀ e, e ∈ votes → voterOf Number e ≠ Some voter) ∧
       computeScore Number votes =
       computeScore Number (withoutVoter Number voter votes)
     end) ∧
  (∀ (votes : list Event) (voter : string) (e : Event) (t s : Z),
     e ∈ votes → voteTriple Number e = Some (voter, t, s) →
     (∀ e' t' s', e' ∈ votes → voteTriple Number e' = Some (voter, t', s') →
                  t' < t ∨ (t' = t ∧ s' = s)) →
     latestByVoter Number votes !! voter = Some (mkLatest t s) ∧
     computeScore Number votes =
     s + computeScore Number (withoutVoter Number voter votes)) ∧
  (∀ (votes : list Event) (voter : string) (e1 e2 : Event),
     e1 ∈ votes → e2 ∈ votes →
     voteTriple Number e1 = Some (voter, 10, 1) →
     voteTriple Number e2 = Some (voter, 20, -1) →
     (∀ e', e' ∈ votes → voterOf Number e' = Some voter → e' = e1 ∨ e' = e2) →
     computeScore Number votes =
     -1 + computeScore Number (withoutVoter Number voter votes)).
Proof.
  assert (Hgen : ∀ votes voter e t s,
     e ∈ votes → voteTriple Number e = Some (voter, t, s) →
     (∀ e' t' s', e' ∈ votes → voteTriple Number e' = Some (voter, t', s') →
                  t' < t ∨ (t' = t ∧ s' = s)) →
     latestByVoter Number votes !! voter = Some (mkLatest t s) ∧
     computeScore Number votes =
     s + computeScore Number (withoutVoter Number voter votes)).
  { intros votes voter e t s Hin He Hmax.
    pose proof (latestByVoter_latest votes voter e t s Hin He Hmax) as Hl.
    split; [done|]. by rewrite (computeScore_split votes voter), Hl. }
  split; [|split; [exact Hgen|]].
  - intros votes voter. pose proof (computeScore_split votes voter) as Hsplit.
    destruct (latestByVoter Number votes !! voter) as [L|] eqn:Hl.
    + split; [by apply latestByVoter_Some_inv|]. split; [|done].
      intros e t s. by apply latestByVoter_Some_max.
    + split; [|done]. intros e. by apply latestByVoter_None_inv.
  - intros votes voter e1 e2 Hin1 Hin2 He1 He2 Honly.
    apply (Hgen votes voter e2 20 (-1) Hin2 He2).
    intros e' t' s' Hin' He'.
    destruct (Honly e' Hin') as [->| ->].
    + unfold voterOf. by rewrite He'.
    + rewrite He1 in He'. injection He' as <- <-. lia.
    + rewrite He2 in He'. injection He' as <- <-. lia.
Qed.

(** C2, amended: the score does not change when a duplicate of an event of
    the input is appended, and it does not change under a permutation of
    the input that holds no two votes of one voter with one timestamp and
    two signs. *)
Theorem computeScore_duplicate_and_reorder :
  (∀ (votes : list Event) (e : Event),
     e ∈ votes → computeScore Number (votes ++ [e]) = computeScore Number votes) ∧
  (∀ votes votes' : list Event,
     votes ≡ₚ votes' → tieFree Number votes →
     computeScore Number votes' = computeScore Number votes).
Proof.
  split.
  - intros votes e Hin. unfold computeScore.
    by rewrite latestByVoter_snoc, scoreStep_duplicate.
  - intros votes votes' Hperm Hfree. unfold computeScore.
    by rewrite (latestByVoter_Permutation votes votes').
Qed.

(** C3, amended: an event without a [v] tag, or whose first [v] tag holds a
    value that does not convert to one of 1, -1 and 0, or without a
    (non-empty) pubkey leaves the map of the resolution as it is and is
    excluded from the score, wherever it stands in the input; the function
    is total on events whose tags are arrays of strings.  The [p] and [e]
    tags are not looked at: an event counts exactly as the same event
    stripped of every tag but its [v] tags. *)
Theorem computeScore_excludes_malformed (ev : Event) :
  (List.find (λ t, bool_decide (head t = Some "v")) (tags ev) = None ∨
   (∃ signTag,
      List.find (λ t, bool_decide (head t = Some "v")) (tags ev) = Some signTag ∧
      ∀ z, NumberOf Number (signTag !! 1%nat) = Int z → z ∉ [1; -1; 0]) ∨
   truthy (pubkey ev) = false) →
  (∀ m, scoreStep Number m ev = m) ∧
  (∀ l1 l2, computeScore Number (l1 ++ ev :: l2) = computeScore Number (l1 ++ l2)) ∧
  (∀ (ev' : Event) m,
     scoreStep Number m (onlySignTags ev') = scoreStep Number m ev').
Proof.
  intros Hbad.
  assert (Hnone : voteTriple Number ev = None).
  { unfold voteTriple.
    destruct Hbad as [->|[(signTag & -> & Hsign)| Hpk]]; [done| |].
    - destruct (NumberOf Number (signTag !! 1%nat)) as [z|]; [|done].
      unfold includes. rewrite bool_decide_eq_false_2; [done|by apply Hsign].
    - by repeat case_match. }
  split; [intros m; by apply scoreStep_skip|].
  split; [intros l1 l2; by apply computeScore_skip|].
  intros ev' m. by rewrite !scoreStep_voteTriple, voteTriple_onlySignTags.
Qed.

End ScoreProperties.

(** The sample votes evaluate as the claims say. *)
Example computeScore_sample :
  computeScore NumberInt [aliceUp10; bobUp5; aliceDown20] = 0 ∧
  computeScore NumberInt [aliceDown20; aliceUp10] = -1 ∧
  computeScore NumberInt [aliceUp10; aliceDown20] = -1.
Proof. by vm_compute. Qed.

(** The claim's example: alice votes +1 at 10 and -1 at 20, next to a vote
    of bob. *)
Lemma computeScore_latest_wins_witness :
  computeScore NumberInt [aliceUp10; bobUp5; aliceDown20] =
    -1 + computeScore NumberInt
           (withoutVoter NumberInt "alice" [aliceUp10; bobUp5; aliceDown20]).
Proof.
  apply (proj2 (proj2 (computeScore_latest_wins NumberInt))
           [aliceUp10; bobUp5; aliceDown20] "alice" aliceUp10 aliceDown20).
  - apply list_elem_of_here.
  - do 2 apply list_elem_of_further. apply list_elem_of_here.
  - reflexivity.
  - reflexivity.
  - intros e' Hin.
    apply elem_of_cons in Hin as [->|Hin];
      [intros _; by left|].
    apply elem_of_cons in Hin as [->|Hin];
      [intros H; vm_compute in H; discriminate H|].
    apply list_elem_of_singleton in Hin as ->. intros _; by right.
Defined.

(** C2 as stated fails: two votes of one voter with one timestamp are
    resolved by their order in the input. *)
Lemma computeScore_reorder_counterexample :
  [aliceUp10; aliceDown10] ≡ₚ [aliceDown10; aliceUp10] ∧
  forallb (specWellFormedVote NumberInt) [aliceUp10; aliceDown10] = true ∧
  computeScore NumberInt [aliceUp10; aliceDown10] = 1 ∧
  computeScore NumberInt [aliceDown10; aliceUp10] = -1.
Proof. split; [apply perm_swap|by vm_compute]. Qed.

Lemma computeScore_duplicate_and_reorder_witness :
  computeScore NumberInt ([aliceUp10; bobUp5; aliceDown20] ++ [aliceUp10]) =
    computeScore NumberInt [aliceUp10; bobUp5; aliceDown20] ∧
  computeScore NumberInt [aliceDown20; aliceUp10] =
    computeScore NumberInt [aliceUp10; aliceDown20].
Proof.
  split.
  - apply (proj1 (computeScore_duplicate_and_reorder NumberInt)).
    apply list_elem_of_here.
  - apply (proj2 (computeScore_duplicate_and_reorder NumberInt)).
    + apply perm_swap.
    + intros e1 e2 H1 H2.
      apply elem_of_cons in H1 as [->|H1];
        [|apply list_elem_of_singleton in H1 as ->];
        (apply elem_of_cons in H2 as [->|H2];
          [|apply list_elem_of_singleton in H2 as ->]);
        reflexivity.
Defined.

(** C3 as stated fails: an event with neither a [p] nor an [e] tag is
    counted. *)
Lemma computeScore_missing_tags_counterexample :
  hasTag "p" voteOnlyV = false ∧ hasTag "e" voteOnlyV = false ∧
  specWellFormedVote NumberInt voteOnlyV = false ∧
  computeScore NumberInt [] = 0 ∧
  computeScore NumberInt [voteOnlyV] = 1.
Proof. by vm_compute. Qed.

Lemma computeScore_excludes_malformed_witness :
  (∀ m, scoreStep NumberInt m voteBadSign = m) ∧
  (∀ l1 l2, computeScore NumberInt (l1 ++ voteBadSign :: l2) =
            computeScore NumberInt (l1 ++ l2)) ∧
  (∀ ev' m, scoreStep NumberInt m (onlySignTags ev') = scoreStep NumberInt m ev').
Proof.
  apply (computeScore_excludes_malformed NumberInt voteBadSign).
  right; left. exists ["v"; "2"]. split; [reflexivity|].
  intros z. vm_compute. intros [= <-] Hin.
  apply elem_of_cons in Hin as [Hin|Hin]; [discriminate|].
  apply elem_of_cons in Hin as [Hin|Hin]; [discriminate|].
  apply list_elem_of_singleton in Hin. discriminate.
Defined.

(** ** Relay collection *)

Lemma objSet_keys (out : Obj) (k : string) (v : Event) :
  k ∈ out.*1 → (objSet out k v).*1 = out.*1.
Proof.
  induction out as [|[k' v'] out IH]; simpl; [set_solver|].
  intros Hin. destruct (decide (k' = k)) as [->|Hne]; simpl; [done|].
  f_equal. apply IH. apply elem_of_cons in Hin as [?|?]; [congruence|done].
Qed.

Lemma objSet_keys_fresh (out : Obj) (k : string) (v : Event) :
  k ∉ out.*1 → (objSet out k v).*1 = out.*1 ++ [k].
Proof.
  induction out as [|[k' v'] out IH]; simpl; [done|].
  intros Hin. apply not_elem_of_cons in Hin as [Hne Hin].
  destruct (decide (k' = k)) as [->|_]; simpl; [done|]. f_equal. by apply IH.
Qed.

Lemma objSet_NoDup (out : Obj) (k : string) (v : Event) :
  NoDup out.*1 → NoDup (objSet out k v).*1.
Proof.
  intros Hnd. destruct (decide (k ∈ out.*1)) as [Hin|Hin].
  - by rewrite objSet_keys.
  - rewrite objSet_keys_fresh by done. apply NoDup_app.
    split; [done|]. split; [|apply NoDup_singleton].
    intros x Hx ->%list_elem_of_singleton. done.
Qed.

Lemma objSet_elem_of (out : Obj) (k : string) (v : Event) (k0 : string) (v0 : Event) :
  (k0, v0) ∈ objSet out k v → (k0, v0) = (k, v) ∨ (k0, v0) ∈ out.
Proof.
  induction out as [|[k' v'] out IH]; simpl.
  - intros ->%list_elem_of_singleton. by left.
  - destruct (decide (k' = k)) as [->|Hne]; intros [->|Hin]%elem_of_cons.
    + by left.
    + right. by apply list_elem_of_further.
    + right. apply list_elem_of_here.
    + destruct (IH Hin) as [?|?]; [by left|right; by apply list_elem_of_further].
Qed.

Lemma objSet_keyedById (out : Obj) (ev : Event) :
  keyedById out → keyedById (objSet out (propKey (id ev)) ev).
Proof.
  intros Hk k0 v0 Hin. apply objSet_elem_of in Hin as [[= -> ->]|Hin]; [done|].
  by apply Hk.
Qed.

(** The values of an object keyed by id carry pairwise distinct ids. *)
Lemma objValues_NoDup (out : Obj) :
  keyedById out → NoDup out.*1 → NoDup (id <$> objValues out).
Proof.
  intros Hk Hnd. apply (NoDup_fmap_1 propKey). unfold objValues.
  assert (Heq : propKey <$> (id <$> out.*2) = out.*1); [|by rewrite Heq].
  clear Hnd. induction out as [|[k ev] out IH]; [done|]. simpl. f_equal.
  - symmetry. apply Hk. apply list_elem_of_here.
  - apply IH. intros k' ev' Hin. apply Hk. by apply list_elem_of_further.
Qed.


(** The listener of [collectFromRelay], run over the arrivals. *)
Lemma collect_fold_invariant (timeoutMs : Z) (arrivals : list (Z * Event)) (out : Obj) :
  keyedById out → NoDup out.*1 →
  let out' :=
    foldl (λ (out : Obj) '(t, ev),
             if t <? timeoutMs then objSet out (propKey (id ev)) ev else out)
          out arrivals in
  keyedById out' ∧ NoDup out'.*1.
Proof.
  revert out. induction arrivals as [|[t ev] arrivals IH]; intros out Hk Hnd; [done|].
  simpl. apply IH; destruct (t <? timeoutMs);
    auto using objSet_keyedById, objSet_NoDup.
Qed.

Lemma collect_fold_late (timeoutMs : Z) (arrivals : list (Z * Event)) (out : Obj) :
  (∀ t ev, (t, ev) ∈ arrivals → timeoutMs ≤ t) →
  foldl (λ (out : Obj) '(t, ev),
           if t <? timeoutMs then objSet out (propKey (id ev)) ev else out)
        out arrivals = out.
Proof.
  induction arrivals as [|[t ev] arrivals IH]; intros Hlate; [done|]. simpl.
  destruct (Z.ltb_spec t timeoutMs) as [Hlt|_].
  - specialize (Hlate t ev (list_elem_of_here _ _)). lia.
  - apply IH. intros t' ev' Hin. apply (Hlate t' ev'). by apply list_elem_of_further.
Qed.

(** A collection that is fulfilled holds at most one event per id. *)
Lemma collectFromRelay_NoDup (relay : Relay) (filters : list Filter)
    (timeoutMs : Z) (events : list Event) :
  collectFromRelay relay filters timeoutMs = Fulfilled events →
  NoDup (id <$> events).
Proof.
  unfold collectFromRelay. destruct (sub relay filters) as [|arrivals]; [done|].
  intros [= <-].
  destruct (collect_fold_invariant timeoutMs arrivals []) as [Hk Hnd].
  - intros k ev Hin. by apply elem_of_nil in Hin.
  - apply NoDup_nil_2.
  - by apply objValues_NoDup.
Qed.

Lemma relayContribution_NoDup (eventIdHex : string) (timeoutMs : Z) (relay : Relay) :
  NoDup (id <$> relayContribution eventIdHex timeoutMs relay).
Proof.
  unfold relayContribution.
  destruct (collectFromRelay relay _ timeoutMs) as [events|] eqn:Hc.
  - by eapply collectFromRelay_NoDup.
  - apply NoDup_nil_2.
Qed.

Lemma fetchStep_contribution (eventIdHex : string) (timeoutMs : Z)
    (results : list Event) (relay : Relay) :
  fetchStep (voteFilters eventIdHex) timeoutMs results relay =
  results ++ relayContribution eventIdHex timeoutMs relay.
Proof.
  unfold fetchStep, relayContribution.
  destruct (collectFromRelay relay _ timeoutMs); by rewrite ?app_nil_r.
Qed.

Lemma fetch_fold_concat (eventIdHex : string) (timeoutMs : Z)
    (relays : list Relay) (results : list Event) :
  foldl (fetchStep (voteFilters eventIdHex) timeoutMs) results relays =
  results ++ concat (relayContribution eventIdHex timeoutMs <$> relays).
Proof.
  revert results. induction relays as [|r relays IH]; intros results; simpl.
  - by rewrite app_nil_r.
  - by rewrite IH, fetchStep_contribution, app_assoc.
Qed.

Lemma fetchVotesForPost_concat (relays : list Relay) (eventIdHex : string)
    (timeoutMs : Z) :
  fetchVotesForPost relays eventIdHex timeoutMs =
  concat (relayContribution eventIdHex timeoutMs <$> relays).
Proof. unfold fetchVotesForPost. by rewrite fetch_fold_concat. Qed.

Lemma countId_app (i : option string) (l1 l2 : list Event) :
  countId i (l1 ++ l2) = (countId i l1 + countId i l2)%nat.
Proof. unfold countId. by rewrite filter_app, length_app. Qed.

Lemma countId_absent (i : option string) (l : list Event) :
  i ∉ id <$> l → countId i l = 0%nat.
Proof.
  unfold countId. induction l as [|ev l IH]; simpl; [done|].
  intros [Hne Hnotin]%not_elem_of_cons.
  rewrite filter_cons_False by done. by apply IH.
Qed.

Lemma countId_NoDup (i : option string) (l : list Event) :
  NoDup (id <$> l) → (countId i l ≤ 1)%nat.
Proof.
  induction l as [|ev l IH]; simpl; [unfold countId; simpl; lia|].
  intros [Hnotin Hnd]%NoDup_cons.
  change (ev :: l) with ([ev] ++ l). rewrite countId_app.
  destruct (decide (id ev = i)) as [<-|Hne].
  - rewrite (countId_absent _ l Hnotin). unfold countId.
    rewrite filter_cons_True by done. simpl. lia.
  - specialize (IH Hnd). unfold countId at 1.
    rewrite filter_cons_False by done. simpl. lia.
Qed.

Lemma countId_concat (i : option string) (ls : list (list Event)) :
  Forall (λ l, NoDup (id <$> l)) ls → (countId i (concat ls) ≤ length ls)%nat.
Proof.
  induction 1 as [|l ls Hl _ IH]; simpl; [done|].
  rewrite countId_app. pose proof (countId_NoDup i l Hl). lia.
Qed.

(** *** Repeated events and the score *)

Lemma firstOccurrences_snoc (l : list Event) (ev : Event) :
  firstOccurrences (l ++ [ev]) =
  if bool_decide (ev ∈ firstOccurrences l) then firstOccurrences l
  else firstOccurrences l ++ [ev].
Proof. unfold firstOccurrences. by rewrite foldl_app. Qed.

Lemma elem_of_firstOccurrences (l : list Event) (ev : Event) :
  ev ∈ firstOccurrences l ↔ ev ∈ l.
Proof.
  induction l as [|x l IH] using rev_ind; [done|].
  rewrite firstOccurrences_snoc, elem_of_app, list_elem_of_singleton.
  case_bool_decide as Hx.
  - rewrite IH. split; [by left|]. intros [?| ->]; [done|by apply IH].
  - by rewrite elem_of_app, list_elem_of_singleton, IH.
Qed.

Lemma latestByVoter_firstOccurrences (Number : string → number) (l : list Event) :
  latestByVoter Number (firstOccurrences l) = latestByVoter Number l.
Proof.
  induction l as [|x l IH] using rev_ind; [done|].
  rewrite firstOccurrences_snoc, latestByVoter_snoc.
  case_bool_decide as Hx.
  - rewrite scoreStep_duplicate; [done|by apply elem_of_firstOccurrences].
  - by rewrite latestByVoter_snoc, IH.
Qed.

(** C4, amended: the merged collection is the concatenation of the
    collections of the relays, in the order of the relays; each of them holds
    at most one event per id, so an id occurs in the merged collection at
    most once per relay; and the score of the merged collection is the score
    of the collection without its repeated events. *)
Theorem fetchVotesForPost_merge (relays : list Relay) (eventIdHex : string)
    (timeoutMs : Z) :
  fetchVotesForPost relays eventIdHex timeoutMs =
    concat (relayContribution eventIdHex timeoutMs <$> relays) ∧
  (∀ relay, NoDup (id <$> relayContribution eventIdHex timeoutMs relay)) ∧
  (∀ i, (countId i (fetchVotesForPost relays eventIdHex timeoutMs)
         ≤ length relays)%nat) ∧
  (∀ Number,
     computeScore Number (fetchVotesForPost relays eventIdHex timeoutMs) =
     computeScore Number
       (firstOccurrences (fetchVotesForPost relays eventIdHex timeoutMs))).
Proof.
  split; [apply fetchVotesForPost_concat|].
  split; [intros relay; apply relayContribution_NoDup|].
  split.
  - intros i. rewrite fetchVotesForPost_concat.
    etrans; [apply countId_concat|by rewrite length_fmap].
    apply Forall_fmap, Forall_forall. intros relay _.
    apply relayContribution_NoDup.
  - intros Number. unfold computeScore.
    by rewrite latestByVoter_firstOccurrences.
Qed.

(** C4 as stated fails: an event returned by two relays is twice in the
    merged collection. *)
Lemma fetchVotesForPost_merge_counterexample :
  fetchVotesForPost [relayWith "wss://a" [aliceUp10]; relayWith "wss://b" [aliceUp10]]
    "target" 4000 = [aliceUp10; aliceUp10] ∧
  countId (Some "a1")
    (fetchVotesForPost [relayWith "wss://a" [aliceUp10]; relayWith "wss://b" [aliceUp10]]
       "target" 4000) = 2%nat.
Proof. by vm_compute. Qed.

(** C8, amended: a relay whose subscription throws makes the promise of
    [collectFromRelay] reject, and the rejection is caught by the caller,
    [fetchVotesForPost]; a relay that hands over no event before the timer
    fires yields the empty collection.  Either way the relay adds nothing to
    the merged collection, which is what it would be without that relay. *)
Theorem collectFromRelay_failure_contained (relay : Relay)
    (eventIdHex : string) (timeoutMs : Z) :
  (sub relay (voteFilters eventIdHex) = SubThrows ∨
   ∃ arrivals, sub relay (voteFilters eventIdHex) = Delivers arrivals ∧
               ∀ t ev, (t, ev) ∈ arrivals → timeoutMs ≤ t) →
  (sub relay (voteFilters eventIdHex) = SubThrows →
   collectFromRelay relay (voteFilters eventIdHex) timeoutMs = Rejected) ∧
  (sub relay (voteFilters eventIdHex) ≠ SubThrows →
   collectFromRelay relay (voteFilters eventIdHex) timeoutMs = Fulfilled []) ∧
  (∀ results,
     fetchStep (voteFilters eventIdHex) timeoutMs results relay = results) ∧
  (∀ rs1 rs2,
     fetchVotesForPost (rs1 ++ relay :: rs2) eventIdHex timeoutMs =
     fetchVotesForPost (rs1 ++ rs2) eventIdHex timeoutMs).
Proof.
  intros Hfail.
  assert (Hrej : sub relay (voteFilters eventIdHex) = SubThrows →
                 collectFromRelay relay (voteFilters eventIdHex) timeoutMs = Rejected).
  { unfold collectFromRelay. by intros ->. }
  assert (Hempty : sub relay (voteFilters eventIdHex) ≠ SubThrows →
                   collectFromRelay relay (voteFilters eventIdHex) timeoutMs = Fulfilled []).
  { intros Hne. destruct Hfail as [?|(arrivals & Hsub & Hlate)]; [done|].
    unfold collectFromRelay. rewrite Hsub. by rewrite collect_fold_late. }
  assert (Hnil : relayContribution eventIdHex timeoutMs relay = []).
  { unfold relayContribution.
    destruct (sub relay (voteFilters eventIdHex)) as [|arrivals] eqn:Hsub.
    - by rewrite Hrej.
    - by rewrite Hempty. }
  split; [done|]. split; [done|]. split.
  - intros results. by rewrite fetchStep_contribution, Hnil, app_nil_r.
  - intros rs1 rs2. rewrite !fetchVotesForPost_concat, !fmap_app, fmap_cons.
    rewrite !concat_app. simpl. by rewrite Hnil.
Qed.

Lemma collectFromRelay_failure_contained_witness :
  (sub relayBroken (voteFilters "target") = SubThrows →
   collectFromRelay relayBroken (voteFilters "target") 3000 = Rejected) ∧
  (sub relayBroken (voteFilters "target") ≠ SubThrows →
   collectFromRelay relayBroken (voteFilters "target") 3000 = Fulfilled []) ∧
  (∀ results,
     fetchStep (voteFilters "target") 3000 results relayBroken = results) ∧
  (∀ rs1 rs2,
     fetchVotesForPost (rs1 ++ relayBroken :: rs2) "target" 3000 =
     fetchVotesForPost (rs1 ++ rs2) "target" 3000).
Proof.
  apply (collectFromRelay_failure_contained relayBroken "target" 3000).
  left. reflexivity.
Defined.

(** C8 as stated fails: the failure of a subscription reaches the caller of
    [collectFromRelay] as a rejected promise. *)
Lemma collectFromRelay_rejects_counterexample :
  collectFromRelay relayBroken (voteFilters "target") 3000 = Rejected.
Proof. reflexivity. Qed.

(** A silent relay and a broken one next to a relay that answers. *)
Example fetchVotesForPost_sample :
  fetchVotesForPost [relayBroken; relayWith "wss://a" [aliceUp10; aliceUp10]; relaySilent]
    "target" 4000 = [aliceUp10].
Proof. by vm_compute. Qed.

(** ** The feed buffer *)

Lemma sortInsert_Permutation (cmp : Event → Event → Z) (x : Event) (l : list Event) :
  sortInsert cmp x l ≡ₚ x :: l.
Proof.
  induction l as [|y l IH]; simpl; [done|].
  destruct (cmp x y <=? 0); [done|]. by rewrite IH, Permutation_swap.
Qed.

Lemma arraySort_Permutation (cmp : Event → Event → Z) (l : list Event) :
  arraySort cmp l ≡ₚ l.
Proof.
  induction l as [|x l IH]; simpl; [done|].
  by rewrite sortInsert_Permutation, IH.
Qed.

Lemma compareFn_le (a b : Event) : compareFn a b ≤ 0 ↔ notOlder a b.
Proof. unfold compareFn, notOlder, sortKey. lia. Qed.

Lemma sortInsert_sorted (x : Event) (l : list Event) :
  StronglySorted notOlder l → StronglySorted notOlder (sortInsert compareFn x l).
Proof.
  induction 1 as [|y l Hl IH Hy]; simpl.
  - repeat constructor.
  - destruct (Z.leb_spec (compareFn x y) 0) as [Hle|Hgt].
    + apply compareFn_le in Hle. constructor; [by constructor|].
      constructor; [done|]. eapply Forall_impl; [exact Hy|].
      unfold notOlder in *. intros z ?. lia.
    + constructor; [done|].
      rewrite sortInsert_Permutation. constructor; [|done].
      unfold notOlder, compareFn, sortKey in *. lia.
Qed.

Lemma arraySort_sorted (l : list Event) :
  StronglySorted notOlder (arraySort compareFn l).
Proof.
  induction l as [|x l IH]; simpl; [constructor|by apply sortInsert_sorted].
Qed.

(** The sort is stable: events with one timestamp keep their order. *)
Lemma sortInsert_withKey (t : Z) (x : Event) (l : list Event) :
  withKey t (sortInsert compareFn x l) = withKey t (x :: l).
Proof.
  unfold withKey. induction l as [|y l IH]; simpl; [done|].
  destruct (Z.leb_spec (compareFn x y) 0) as [Hle|Hgt]; [done|].
  unfold compareFn in Hgt. fold (sortKey x) (sortKey y) in Hgt.
  destruct (decide (sortKey y = t)) as [Hy|Hy];
    destruct (decide (sortKey x = t)) as [Hx|Hx]; [lia|..].
  - rewrite (filter_cons_True _ y), IH by done.
    by rewrite (filter_cons_False _ x), (filter_cons_False _ x),
         (filter_cons_True _ y) by done.
  - rewrite (filter_cons_False _ y), IH by done.
    by rewrite (filter_cons_True _ x), (filter_cons_True _ x),
         (filter_cons_False _ y) by done.
  - rewrite (filter_cons_False _ y), IH by done.
    by rewrite (filter_cons_False _ x), (filter_cons_False _ x),
         (filter_cons_False _ y) by done.
Qed.

Lemma arraySort_withKey (t : Z) (l : list Event) :
  withKey t (arraySort compareFn l) = withKey t l.
Proof.
  induction l as [|x l IH]; simpl; [done|].
  rewrite sortInsert_withKey. unfold withKey in *.
  destruct (decide (sortKey x = t)).
  - by rewrite !(filter_cons_True _ x), IH.
  - by rewrite !(filter_cons_False _ x), IH.
Qed.

Lemma NoDup_fmap_eq {A B} (f : A → B) (l : list A) (x y : A) :
  NoDup (f <$> l) → x ∈ l → y ∈ l → f x = f y → x = y.
Proof.
  induction l as [|z l IH]; simpl; [by intros _ ?%elem_of_nil|].
  intros [Hz Hnd]%NoDup_cons [->|Hx]%elem_of_cons [->|Hy]%elem_of_cons Heq.
  - done.
  - exfalso. apply Hz. rewrite Heq. by apply list_elem_of_fmap_2.
  - exfalso. apply Hz. rewrite <- Heq. by apply list_elem_of_fmap_2.
  - by apply IH.
Qed.

(** With pairwise distinct timestamps the sorted sequence depends on the
    pending events only, not on their order. *)
Lemma arraySort_Permutation_eq (l1 l2 : list Event) :
  l1 ≡ₚ l2 → NoDup (sortKey <$> l1) →
  arraySort compareFn l1 = arraySort compareFn l2.
Proof.
  intros Hperm Hnd.
  apply (StronglySorted_unique_strong notOlder);
    [|apply arraySort_sorted..|by rewrite !arraySort_Permutation].
  intros x1 x2 H1 H2 H12 H21.
  rewrite arraySort_Permutation in H1, H2. rewrite <- Hperm in H2.
  apply (NoDup_fmap_eq sortKey l1); [done..|].
  unfold notOlder in *. lia.
Qed.

(** *** Rendering and flushing *)

Lemma render_fold_rendered (l : list Event) (c : Client) :
  rendered (foldl (λ c ev, renderNote c ev true) c l) = rendered c ++ l.
Proof.
  revert c. induction l as [|ev l IH]; intros c; simpl.
  - by rewrite app_nil_r.
  - rewrite IH. simpl. by rewrite <- app_assoc.
Qed.

Lemma render_fold_seenIds (l : list Event) (c : Client) :
  seenIds (foldl (λ c ev, renderNote c ev true) c l) = seenIds c.
Proof. revert c. induction l as [|ev l IH]; intros c; simpl; [done|by rewrite IH]. Qed.

Lemma flushBufferToFeed_rendered (c : Client) :
  rendered (flushBufferToFeed c) = rendered c ++ arraySort compareFn (buffer c).
Proof.
  unfold flushBufferToFeed. case_bool_decide as Hb.
  - rewrite Hb. simpl. by rewrite app_nil_r.
  - simpl. by rewrite render_fold_rendered.
Qed.

Lemma flushBufferToFeed_buffer (c : Client) : buffer (flushBufferToFeed c) = [].
Proof. unfold flushBufferToFeed. by case_bool_decide. Qed.

Lemma flushBufferToFeed_seenIds (c : Client) :
  seenIds (flushBufferToFeed c) = seenIds c.
Proof.
  unfold flushBufferToFeed. case_bool_decide; [done|].
  simpl. by rewrite render_fold_seenIds.
Qed.

Lemma take_app_take {A} (n m : nat) (l1 l2 : list A) :
  (n ≤ m)%nat → take n (l1 ++ take m l2) = take n (l1 ++ l2).
Proof.
  revert n. induction l1 as [|x l1 IH]; intros n Hle; simpl.
  - rewrite take_take. f_equal. lia.
  - destruct n as [|n]; [done|]. simpl. f_equal. apply IH. lia.
Qed.

(** Each note goes on top of the notes rendered before it, so the feed
    shows the notes of a flush in the reverse of the order of rendering, cut
    to 200 children. *)
Lemma render_fold_feed (l : list Event) (c : Client) :
  take 200 (feed (foldl (λ c ev, renderNote c ev true) c l)) =
  take 200 (reverse l ++ feed c).
Proof.
  revert c. induction l as [|ev l IH]; intros c; [done|].
  simpl foldl. rewrite IH. unfold renderNote at 1. simpl feed.
  assert (Htop : (if negb (bool_decide (feed c = [])) then ev :: feed c
                  else feed c ++ [ev]) = ev :: feed c).
  { by destruct (feed c). }
  rewrite Htop, take_app_take by done.
  by rewrite reverse_cons, <- app_assoc.
Qed.

Lemma flushBufferToFeed_feed (c : Client) :
  take 200 (feed (flushBufferToFeed c)) =
  take 200 (reverse (arraySort compareFn (buffer c)) ++ feed c).
Proof.
  unfold flushBufferToFeed. case_bool_decide as Hb.
  - by rewrite Hb.
  - simpl. apply render_fold_feed.
Qed.

(** C6, amended: a flush hands every pending event to [renderNote], newest
    first (a missing [created_at] counting as 0); events with equal
    [created_at] go in the order in which they were buffered, the comparator
    having no tie-break, so the sequence depends on the pending events alone
    only when their timestamps differ pairwise.  The flush leaves nothing
    pending, and the flush that follows it renders nothing and changes
    nothing. *)
Theorem flushBufferToFeed_order (c : Client) :
  let emitted := arraySort compareFn (buffer c) in
  rendered (flushBufferToFeed c) = rendered c ++ emitted ∧
  emitted ≡ₚ buffer c ∧
  StronglySorted notOlder emitted ∧
  (∀ t, withKey t emitted = withKey t (buffer c)) ∧
  (∀ c2, buffer c2 ≡ₚ buffer c → NoDup (sortKey <$> buffer c) →
         arraySort compareFn (buffer c2) = emitted) ∧
  buffer (flushBufferToFeed c) = [] ∧
  pendingCount (flushBufferToFeed c) = 0 ∧
  flushBufferToFeed (flushBufferToFeed c) = flushBufferToFeed c.
Proof.
  simpl. split; [apply flushBufferToFeed_rendered|].
  split; [apply arraySort_Permutation|].
  split; [apply arraySort_sorted|].
  split; [intros t; apply arraySort_withKey|].
  split; [intros c2 Hperm Hnd; symmetry; by apply arraySort_Permutation_eq|].
  split; [apply flushBufferToFeed_buffer|].
  split; [unfold pendingCount; by rewrite flushBufferToFeed_buffer|].
  unfold flushBufferToFeed at 1. by rewrite flushBufferToFeed_buffer.
Qed.

Lemma flushBufferToFeed_order_witness :
  arraySort compareFn (buffer clientThree') =
  arraySort compareFn (buffer clientThree).
Proof.
  apply (proj1 (proj2 (proj2 (proj2 (proj2 (flushBufferToFeed_order clientThree)))))
           clientThree').
  - change (buffer clientThree') with [note300; note200; note100].
    change (buffer clientThree) with [note100; note300; note200].
    etrans; [apply perm_skip, perm_swap|apply perm_swap].
  - change (sortKey <$> buffer clientThree) with [100; 300; 200].
    repeat (apply NoDup_cons; split;
            [intros Hin; repeat (apply elem_of_cons in Hin as [Hin|Hin];
                                 [discriminate|]);
             by apply elem_of_nil in Hin|]).
    apply NoDup_nil_2.
Defined.

(** Pending notes with the timestamps 100, 300, 200 are rendered in the
    order 300, 200, 100, each on top of the one before, and a second flush
    renders nothing. *)
Example flushBufferToFeed_sample :
  rendered (flushBufferToFeed clientThree) = [note300; note200; note100] ∧
  feed (flushBufferToFeed clientThree) = [note100; note200; note300] ∧
  rendered (flushBufferToFeed (flushBufferToFeed clientThree)) =
    [note300; note200; note100] ∧
  pendingCount (flushBufferToFeed clientThree) = 0.
Proof. by vm_compute. Qed.

(** C6 as stated fails: the same two pending notes are rendered in two
    different orders, each in its order of arrival. *)
Lemma flushBufferToFeed_tie_counterexample :
  buffer clientTieAB ≡ₚ buffer clientTieBA ∧
  rendered (flushBufferToFeed clientTieAB) = [note100; note100'] ∧
  rendered (flushBufferToFeed clientTieBA) = [note100'; note100] ∧
  rendered (flushBufferToFeed clientTieAB) ≠
  rendered (flushBufferToFeed clientTieBA).
Proof.
  split; [apply Permutation_swap|]. split; [by vm_compute|].
  split; [by vm_compute|]. by vm_compute.
Qed.

(** *** Seen ids *)

Lemma bufferIncoming_seenIds (c : Client) (ev : option Event) :
  seenIds c ⊆ seenIds (bufferIncoming c ev).
Proof.
  unfold bufferIncoming. destruct ev as [ev|]; simpl; [|done].
  destruct (id ev) as [i|]; [|done].
  destruct (negb _ || _); simpl; [done|]. apply union_subseteq_r.
Qed.

(** An event whose id is already in [seenIds] is not buffered. *)
Lemma bufferIncoming_seen (c : Client) (ev : Event) (i : string) :
  id ev = Some i → i ∈ seenIds c → bufferIncoming c (Some ev) = c.
Proof.
  intros Hid Hseen. unfold bufferIncoming. simpl. rewrite Hid.
  rewrite (bool_decide_eq_true_2 _ Hseen). by rewrite orb_true_r.
Qed.

Lemma bufferIncoming_bufferSeen (c : Client) (ev : option Event) :
  bufferSeen c → bufferSeen (bufferIncoming c ev).
Proof.
  intros Hinv. unfold bufferIncoming. destruct ev as [ev|]; simpl; [|done].
  destruct (id ev) as [i|] eqn:Hid; [|done].
  destruct (negb _ || _); simpl; [done|].
  intros ev' [Hin| ->%list_elem_of_singleton]%elem_of_app.
  - destruct (Hinv ev' Hin) as (j & ? & ?). exists j. split; [done|].
    apply elem_of_union. by right.
  - exists i. split; [done|]. apply elem_of_union. left. by apply elem_of_singleton.
Qed.

Lemma bufferIncoming_Some (c : Client) (ev : Event) :
  bufferIncoming c (Some ev) =
  match id ev with
  | Some eid =>
    if negb (truthy (Some eid)) || bool_decide (eid ∈ seenIds c) then c
    else setBuffer c ({[eid]} ∪ seenIds c) (buffer c ++ [ev])
  | None => c
  end.
Proof. unfold bufferIncoming. simpl. by destruct (id ev). Qed.

(** Offering two events with one id buffers at most the first. *)
Lemma bufferIncoming_twice (c : Client) (e1 e2 : Event) :
  id e1 = id e2 →
  bufferIncoming (bufferIncoming c (Some e1)) (Some e2) =
  bufferIncoming c (Some e1).
Proof.
  intros Hid. rewrite (bufferIncoming_Some c e1).
  destruct (id e1) as [i|] eqn:Hid1.
  - destruct (negb (truthy (Some i)) || bool_decide (i ∈ seenIds c)) eqn:Hskip.
    + by rewrite bufferIncoming_Some, <- Hid, Hskip.
    + apply (bufferIncoming_seen _ e2 i); [done|]. simpl.
      apply elem_of_union. left. by apply elem_of_singleton.
  - by rewrite bufferIncoming_Some, <- Hid.
Qed.

(** Offered to a client that has seen nothing, two events with one
    (non-empty) id leave one pending entry. *)
Lemma bufferIncoming_twice_pending (c : Client) (e1 e2 : Event) (i : string) :
  id e1 = Some i → id e2 = Some i → i ≠ "" → i ∉ seenIds c → buffer c = [] →
  pendingCount (bufferIncoming (bufferIncoming c (Some e1)) (Some e2)) = 1.
Proof.
  intros H1 H2 Hne Hfresh Hempty.
  rewrite bufferIncoming_twice by congruence.
  unfold bufferIncoming, pendingCount. simpl. rewrite H1. simpl.
  rewrite (bool_decide_eq_true_2 _ Hne), (bool_decide_eq_false_2 _ Hfresh).
  simpl. by rewrite Hempty.
Qed.

(** [renderNote] does not record the id of what it renders. *)
Lemma renderNote_seenIds (c : Client) (ev : Event) (toTop : bool) :
  seenIds (renderNote c ev toTop) = seenIds c.
Proof. done. Qed.

Section NoteEcho.

Variable getPublicKey : string → string.
Variable getEventHash : Event → string.
Variable getSignature : Event → string → string.

(** A note published by the client and then echoed by a relay is rendered a
    second time by the next flush: [publishNote] renders the note without
    adding its id to [seenIds]. *)
Lemma publishNote_echo (c : Client) (sk content : string) (now : Z) :
  let ev := finishEvent getPublicKey getEventHash getSignature
              (mkEvent KIND_NOTE (Some now) [] content None None None) sk in
  privateKey c = Some sk → content ≠ "" → size (connectedRelays c) ≠ 0%nat →
  getEventHash (mkEvent KIND_NOTE (Some now) [] content (Some (getPublicKey sk))
                  None None) ≠ "" →
  getEventHash (mkEvent KIND_NOTE (Some now) [] content (Some (getPublicKey sk))
                  None None) ∉ seenIds c →
  buffer c = [] →
  let c1 := publishNote getPublicKey getEventHash getSignature c content now in
  rendered (flushBufferToFeed (bufferIncoming c1 (Some ev))) =
  rendered c ++ [ev; ev].
Proof.
  intros ev Hsk Hcontent Hconn Hid Hfresh Hbuf c1.
  assert (Hc1 : rendered c1 = rendered c ++ [ev] ∧ seenIds c1 = seenIds c ∧
                buffer c1 = []).
  { subst c1. unfold publishNote.
    rewrite (bool_decide_eq_false_2 _ Hcontent), (bool_decide_eq_false_2 _ Hconn), Hsk.
    fold ev. by destruct (mapPublish _ ev). }
  destruct Hc1 as (Hr & Hs & Hb).
  rewrite flushBufferToFeed_rendered.
  unfold bufferIncoming. simpl.
  rewrite (bool_decide_eq_true_2 _ Hid), Hs, (bool_decide_eq_false_2 _ Hfresh).
  simpl. rewrite Hr, Hb. simpl. by rewrite <- app_assoc.
Qed.

End NoteEcho.

(** C5, the failing run: the client publishes the note "hello", the relay
    echoes it, and the reader asks for the new posts.  The note is buffered
    although it is on the page, and [renderNote] runs twice for its id. *)
Theorem publishNote_echo_rendered_twice :
  let c1 := publishNote toyPublicKey toyEventHash toySignature
              freshClient "hello" 1000 in
  let c2 := bufferIncoming c1 (Some helloNote) in
  let c3 := flushBufferToFeed c2 in
  rendered c1 = [helloNote] ∧
  id helloNote = Some "ff-1-1000-hello" ∧
  ("ff-1-1000-hello" ∉ seenIds c1) ∧
  buffer c2 = [helloNote] ∧
  rendered c3 = [helloNote; helloNote] ∧
  feed c3 = [helloNote; helloNote] ∧
  countId (id helloNote) (feed c3) = 2%nat.
Proof.
  simpl. repeat split; by vm_compute.
Qed.

(** ** The miner *)

Section MinerProperties.

Variable getPublicKey : string → string.
Variable getEventHash : Event → string.
Variable getSignature : Event → string → string.

Lemma finishEvent_tags (t : Event) (sk : string) :
  tags (finishEvent getPublicKey getEventHash getSignature t sk) = tags t.
Proof. done. Qed.

(** The counter of [mineLoop] runs out exactly when the loop test fails:
    starting it higher changes nothing. *)
Lemma mineLoop_fuel (remaining : nat) (unsigned : Event) (sk : string)
    (nibbles : Z) (targetPrefix : string) (maxIters nonce : Z) (calls : nat) :
  (Z.to_nat (maxIters - nonce) ≤ remaining)%nat →
  mineLoop getPublicKey getEventHash getSignature remaining unsigned sk
    nibbles targetPrefix maxIters nonce calls =
  mineLoop getPublicKey getEventHash getSignature (Z.to_nat (maxIters - nonce))
    unsigned sk nibbles targetPrefix maxIters nonce calls.
Proof.
  revert nonce calls.
  induction remaining as [|remaining IH]; intros nonce calls Hge.
  - by replace (Z.to_nat (maxIters - nonce)) with O by lia.
  - destruct (Z.ltb_spec nonce maxIters) as [Hlt|Hle].
    + replace (Z.to_nat (maxIters - nonce))
        with (S (Z.to_nat (maxIters - (nonce + 1)))) by lia.
      simpl. rewrite (proj2 (Z.ltb_lt _ _) Hlt).
      destruct (_ || _); [done|]. apply IH. lia.
    + replace (Z.to_nat (maxIters - nonce)) with O by lia.
      simpl. by rewrite (proj2 (Z.ltb_ge _ _) Hle).
Qed.

(** The mined event keeps the tags of the payload, followed by at most a
    nonce tag. *)
Lemma mineLoop_tags (remaining : nat) (unsigned : Event) (sk : string)
    (nibbles : Z) (targetPrefix : string) (maxIters nonce : Z) (calls : nat) :
  ∃ extra,
    tags (mineLoop getPublicKey getEventHash getSignature remaining unsigned sk
            nibbles targetPrefix maxIters nonce calls).1 =
    tags unsigned ++ extra.
Proof.
  revert nonce calls. induction remaining as [|remaining IH]; intros nonce calls.
  - exists []. simpl. by rewrite app_nil_r.
  - simpl. destruct (nonce <? maxIters).
    + destruct (_ || _); [|apply IH]. by eexists.
    + exists []. simpl. by rewrite app_nil_r.
Qed.

Lemma mineAndFinish_tags (unsigned : Event) (sk : string) (powBits maxIters : Z)
    (t : Tag) :
  t ∈ tags unsigned →
  t ∈ tags (mineAndFinish getPublicKey getEventHash getSignature
              unsigned sk powBits maxIters).
Proof.
  intros Hin. unfold mineAndFinish, mineAndFinishCounted.
  destruct (mineLoop_tags (Z.to_nat maxIters) unsigned sk
              (Z.max 0 (powBits / 4))
              (repeatStr "0" (Z.to_nat (Z.max 0 (powBits / 4)))) maxIters 0 0)
    as [extra ->].
  apply elem_of_app. by left.
Qed.

(** C7, amended: with [powBits = 0] the miner makes one signing call and
    returns its event, whatever [maxIters] is.  When [maxIters] is at least
    1 that call is the first attempt of the loop, and the event is signed
    over the payload with the tag [['nonce', '0']] appended; the payload is
    signed without a nonce tag only when [maxIters] is 0 or less. *)
Theorem mineAndFinish_zero_difficulty (unsigned : Event) (sk : string)
    (maxIters : Z) :
  mineAndFinishCounted getPublicKey getEventHash getSignature
    unsigned sk 0 maxIters =
    (finishEvent getPublicKey getEventHash getSignature
       (if 0 <? maxIters
        then setTags unsigned (tags unsigned ++ [["nonce"; "0"]])
        else unsigned) sk,
     1%nat) ∧
  tags (mineAndFinish getPublicKey getEventHash getSignature
          unsigned sk 0 maxIters) =
    (if 0 <? maxIters then tags unsigned ++ [["nonce"; "0"]]
     else tags unsigned).
Proof.
  assert (Hc : mineAndFinishCounted getPublicKey getEventHash getSignature
                 unsigned sk 0 maxIters =
               (finishEvent getPublicKey getEventHash getSignature
                  (if 0 <? maxIters
                   then setTags unsigned (tags unsigned ++ [["nonce"; "0"]])
                   else unsigned) sk, 1%nat)).
  { unfold mineAndFinishCounted.
    change (Z.max 0 (0 / 4)) with 0.
    destruct (Z.ltb_spec 0 maxIters) as [Hlt|Hle].
    - destruct (Z.to_nat maxIters) as [|n] eqn:Hn; [lia|]. simpl.
      by rewrite (proj2 (Z.ltb_lt _ _) Hlt).
    - by replace (Z.to_nat maxIters) with O by lia. }
  split; [done|]. unfold mineAndFinish. rewrite Hc. simpl.
  by destruct (0 <? maxIters).
Qed.

End MinerProperties.

(** C7 as stated fails: at difficulty 0 with a positive budget the returned
    event carries a nonce tag. *)
Lemma mineAndFinish_nonce_counterexample :
  tags upvotePayload =
    [["p"; "author"]; ["e"; "target"]; ["v"; "1"];
     ["client"; "nostr_karma_postvote"]] ∧
  tags (mineAndFinish toyPublicKey toyEventHash toySignature
          upvotePayload "sk" 0 20000) =
    [["p"; "author"]; ["e"; "target"]; ["v"; "1"];
     ["client"; "nostr_karma_postvote"]; ["nonce"; "0"]] ∧
  hasTag "nonce" (mineAndFinish toyPublicKey toyEventHash toySignature
                    upvotePayload "sk" 0 20000) = true.
Proof. by vm_compute. Qed.

(** At 8 bits the stand-in digest is found at the fourth attempt; without a
    budget the payload is signed as it is. *)
Example mineAndFinish_sample :
  (mineAndFinishCounted toyPublicKey toyEventHash toySignature
     upvotePayload "sk" 8 15000).2 = 4%nat ∧
  id upvoteEvent = Some "00-30010-1000-" ∧
  tags upvoteEvent = tags upvotePayload ++ [["nonce"; "3"]] ∧
  mineAndFinishCounted toyPublicKey toyEventHash toySignature
    upvotePayload "sk" 8 2 =
    (finishEvent toyPublicKey toyEventHash toySignature upvotePayload "sk",
     3%nat).
Proof. by vm_compute. Qed.

(** ** Voting *)

Lemma nextVoteSign_spec (c : Client) (eventIdHex : string) (sign : Z) :
  sign = 1 ∨ sign = -1 →
  nextVoteSign c eventIdHex sign =
  if bool_decide (localVotes c !! eventIdHex = Some sign) then 0 else sign.
Proof.
  intros Hsign. unfold nextVoteSign, or0.
  destruct (localVotes c !! eventIdHex) as [z|]; simpl;
    repeat case_bool_decide; simplify_eq; try done; lia.
Qed.

Section VoteProperties.

Variable getPublicKey : string → string.
Variable getEventHash : Event → string.
Variable getSignature : Event → string → string.

(** [sendVote] when the keys are loaded and no [publish] throws. *)
Lemma sendVote_attempted (c : Client) (sk authorHex eventIdHex : string)
    (sign now : Z) :
  privateKey c = Some sk → sk ≠ "" → truthy (publicKey c) = true →
  mapPublish (relays c) (sentVote getPublicKey getEventHash getSignature c sk authorHex eventIdHex sign now) ≠ None →
  let finalSign := nextVoteSign c eventIdHex sign in
  let c' := sendVote getPublicKey getEventHash getSignature
              c authorHex eventIdHex sign now in
  localVotes c' = <[eventIdHex := finalSign]> (localVotes c) ∧
  toasts c' =
    toasts c ++
    [(if bool_decide (finalSign = 0) then "Vote cleared"
      else if bool_decide (finalSign > 0) then "Upvoted" else "Downvoted",
      "success")].
Proof.
  intros Hsk Hne Hpk Hpub finalSign c'. subst c'. unfold sendVote.
  rewrite Hsk, Hpk. simpl. rewrite (bool_decide_eq_true_2 _ Hne). simpl.
  fold (sentVote getPublicKey getEventHash getSignature c sk authorHex eventIdHex sign now).
  destruct (mapPublish _ _) as [out|]; [|done]. fold finalSign.
  by destruct (bool_decide (finalSign = 0)).
Qed.

(** [sendVote] when a [publish] throws. *)
Lemma sendVote_thrown (c : Client) (sk authorHex eventIdHex : string)
    (sign now : Z) :
  privateKey c = Some sk → sk ≠ "" → truthy (publicKey c) = true →
  mapPublish (relays c) (sentVote getPublicKey getEventHash getSignature c sk authorHex eventIdHex sign now) = None →
  let c' := sendVote getPublicKey getEventHash getSignature
              c authorHex eventIdHex sign now in
  localVotes c' = localVotes c ∧
  toasts c' = toasts c ++ [("Vote failed", "error")].
Proof.
  intros Hsk Hne Hpk Hpub c'. subst c'. unfold sendVote.
  rewrite Hsk, Hpk. simpl. rewrite (bool_decide_eq_true_2 _ Hne). simpl.
  fold (sentVote getPublicKey getEventHash getSignature c sk authorHex eventIdHex sign now). by rewrite Hpub.
Qed.

(** [sendVote] without keys. *)
Lemma sendVote_no_keys (c : Client) (authorHex eventIdHex : string)
    (sign now : Z) :
  truthy (privateKey c) = false ∨ truthy (publicKey c) = false →
  let c' := sendVote getPublicKey getEventHash getSignature
              c authorHex eventIdHex sign now in
  localVotes c' = localVotes c ∧
  toasts c' = toasts c ++ [("No keys loaded", "error")].
Proof.
  intros Hkeys c'. subst c'. unfold sendVote.
  destruct Hkeys as [-> | ->]; simpl; [done|]. by rewrite orb_true_r.
Qed.

(** C9: for a requested sign of +1 or -1 the final sign of [sendVote] is 0
    when the ledger's entry for the target is the requested sign, and the
    requested sign otherwise; it is the sign written into the [v] tag of the
    vote and, once the broadcast has been attempted, into the ledger.  Hence,
    when a first request yields the requested sign, the ledger holds that
    sign after it, the same request again yields 0, and the ledger then
    holds 0. *)
Theorem sendVote_toggle (c : Client) (eventIdHex : string) (sign : Z) :
  sign = 1 ∨ sign = -1 →
  (localVotes c !! eventIdHex = Some sign → nextVoteSign c eventIdHex sign = 0) ∧
  (localVotes c !! eventIdHex ≠ Some sign →
   nextVoteSign c eventIdHex sign = sign) ∧
  (∀ (sk authorHex : string) (now now' : Z),
     privateKey c = Some sk → sk ≠ "" → truthy (publicKey c) = true →
     (∀ ev, mapPublish (relays c) ev ≠ None) →
     let c1 := sendVote getPublicKey getEventHash getSignature
                 c authorHex eventIdHex sign now in
     let c2 := sendVote getPublicKey getEventHash getSignature
                 c1 authorHex eventIdHex sign now' in
     ["v"; pretty (nextVoteSign c eventIdHex sign)] ∈
       tags (sentVote getPublicKey getEventHash getSignature
               c sk authorHex eventIdHex sign now) ∧
     localVotes c1 !! eventIdHex = Some (nextVoteSign c eventIdHex sign) ∧
     (localVotes c !! eventIdHex ≠ Some sign →
      nextVoteSign c1 eventIdHex sign = 0 ∧
      localVotes c2 !! eventIdHex = Some 0)).
Proof.
  intros Hsign.
  pose proof (nextVoteSign_spec c eventIdHex sign Hsign) as Hnext.
  split; [intros Heq; by rewrite Hnext, bool_decide_eq_true_2|].
  split; [intros Hne; by rewrite Hnext, bool_decide_eq_false_2|].
  intros sk authorHex now now' Hsk Hne Hpk Hpub c1 c2.
  destruct (sendVote_attempted c sk authorHex eventIdHex sign now Hsk Hne Hpk
              (Hpub _)) as [Hl1 _].
  fold c1 in Hl1.
  assert (Hkeys1 : privateKey c1 = Some sk ∧ publicKey c1 = publicKey c ∧
                   relays c1 = relays c).
  { subst c1. unfold sendVote. rewrite Hsk, Hpk. simpl.
    rewrite (bool_decide_eq_true_2 _ Hne). simpl.
    repeat case_match; simpl; by rewrite ?Hsk. }
  destruct Hkeys1 as (Hsk1 & Hpk1 & Hrel1).
  split.
  { unfold sentVote. apply mineAndFinish_tags. simpl.
    do 2 apply list_elem_of_further. apply list_elem_of_here. }
  split; [by rewrite Hl1, lookup_insert_eq|].
  intros Hfirst. rewrite bool_decide_eq_false_2 in Hnext by done.
  assert (Hentry : localVotes c1 !! eventIdHex = Some sign).
  { by rewrite Hl1, lookup_insert_eq, Hnext. }
  assert (Hsecond : nextVoteSign c1 eventIdHex sign = 0).
  { rewrite (nextVoteSign_spec c1 eventIdHex sign Hsign).
    by rewrite bool_decide_eq_true_2. }
  split; [done|].
  destruct (sendVote_attempted c1 sk authorHex eventIdHex sign now' Hsk1 Hne)
    as [Hl2 _].
  - by rewrite Hpk1.
  - rewrite Hrel1. apply Hpub.
  - fold c2 in Hl2. by rewrite Hl2, lookup_insert_eq, Hsecond.
Qed.

(** C10, amended: with a relay connected, the ledger entry is set to the
    final sign once the broadcast has been attempted, that is when no
    [publish] call throws, whether or not one of the connected relays
    accepts the event; the ledger is left as it is, with the single signal
    "Vote failed", when a [publish] call throws.  What [sendVote] does with
    no relay connected is not part of the statement. *)
Theorem sendVote_ledger (c : Client) (sk authorHex eventIdHex : string)
    (sign now : Z) :
  privateKey c = Some sk → sk ≠ "" → truthy (publicKey c) = true →
  size (connectedRelays c) ≠ 0%nat →
  (∃ r, r ∈ relays c ∧ status r = 1) →
  let ev := sentVote getPublicKey getEventHash getSignature
              c sk authorHex eventIdHex sign now in
  let c' := sendVote getPublicKey getEventHash getSignature
              c authorHex eventIdHex sign now in
  (mapPublish (relays c) ev ≠ None →
   localVotes c' = <[eventIdHex := nextVoteSign c eventIdHex sign]> (localVotes c) ∧
   ("Vote failed", "error") ∉ drop (length (toasts c)) (toasts c')) ∧
  (mapPublish (relays c) ev = None →
   localVotes c' = localVotes c ∧
   toasts c' = toasts c ++ [("Vote failed", "error")]).
Proof.
  intros Hsk Hne Hpk _ _ ev c'. split.
  - intros Hpub.
    destruct (sendVote_attempted c sk authorHex eventIdHex sign now Hsk Hne Hpk
                Hpub) as [Hl Ht].
    split; [done|]. fold c' in Ht. rewrite Ht, drop_app_length.
    intros Hin%list_elem_of_singleton. by repeat case_bool_decide.
  - intros Hpub.
    by apply (sendVote_thrown c sk authorHex eventIdHex sign now Hsk Hne Hpk).
Qed.

End VoteProperties.

(** A client that has not voted on "target" upvotes it twice. *)
Lemma sendVote_toggle_witness :
  let c1 := sendVote toyPublicKey toyEventHash toySignature
              freshClient "author" "target" 1 1000 in
  let c2 := sendVote toyPublicKey toyEventHash toySignature
              c1 "author" "target" 1 1001 in
  nextVoteSign freshClient "target" 1 = 1 ∧
  ["v"; pretty (nextVoteSign freshClient "target" 1)] ∈
    tags (sentVote toyPublicKey toyEventHash toySignature
            freshClient "sk" "author" "target" 1 1000) ∧
  localVotes c1 !! "target" = Some (nextVoteSign freshClient "target" 1) ∧
  nextVoteSign c1 "target" 1 = 0 ∧
  localVotes c2 !! "target" = Some 0.
Proof.
  assert (Hsign : (1 : Z) = 1 ∨ (1 : Z) = -1) by (left; reflexivity).
  assert (Hfresh : localVotes freshClient !! "target" ≠ Some 1) by discriminate.
  pose proof (sendVote_toggle toyPublicKey toyEventHash toySignature
                freshClient "target" 1 Hsign) as (_ & Hother & Htwice).
  specialize (Htwice "sk" "author" 1000 1001).
  destruct Htwice as (Htag & Hledger & Hsecond).
  - reflexivity.
  - discriminate.
  - reflexivity.
  - intros ev. discriminate.
  - destruct (Hsecond Hfresh) as [Hzero Hcleared].
    split; [exact (Hother Hfresh)|]. split; [exact Htag|].
    split; [exact Hledger|]. split; [exact Hzero|exact Hcleared].
Defined.

(** An upvote, the same upvote again, and a downvote after an upvote. *)
Example sendVote_sample :
  let vote c sign now :=
    sendVote toyPublicKey toyEventHash toySignature c "author" "target" sign now in
  localVotes (vote freshClient 1 1000) !! "target" = Some 1 ∧
  localVotes (vote (vote freshClient 1 1000) 1 1001) !! "target" = Some 0 ∧
  localVotes (vote (vote freshClient 1 1000) (-1) 1001) !! "target" = Some (-1) ∧
  toasts (vote (vote freshClient 1 1000) 1 1001) =
    [("Upvoted", "success"); ("Vote cleared", "success")].
Proof. by vm_compute. Qed.

Lemma sendVote_ledger_witness :
  (let ev := sentVote toyPublicKey toyEventHash toySignature
               clientNoTaker "sk" "author" "target" 1 1000 in
   let c' := sendVote toyPublicKey toyEventHash toySignature
               clientNoTaker "author" "target" 1 1000 in
   (mapPublish (relays clientNoTaker) ev ≠ None →
    localVotes c' =
      <["target" := nextVoteSign clientNoTaker "target" 1]>
        (localVotes clientNoTaker) ∧
    ("Vote failed", "error") ∉ drop (length (toasts clientNoTaker)) (toasts c')) ∧
   (mapPublish (relays clientNoTaker) ev = None →
    localVotes c' = localVotes clientNoTaker ∧
    toasts c' = toasts clientNoTaker ++ [("Vote failed", "error")])) ∧
  (let ev := sentVote toyPublicKey toyEventHash toySignature
               clientBroken "sk" "author" "target" 1 1000 in
   let c' := sendVote toyPublicKey toyEventHash toySignature
               clientBroken "author" "target" 1 1000 in
   (mapPublish (relays clientBroken) ev ≠ None →
    localVotes c' =
      <["target" := nextVoteSign clientBroken "target" 1]>
        (localVotes clientBroken) ∧
    ("Vote failed", "error") ∉ drop (length (toasts clientBroken)) (toasts c')) ∧
   (mapPublish (relays clientBroken) ev = None →
    localVotes c' = localVotes clientBroken ∧
    toasts c' = toasts clientBroken ++ [("Vote failed", "error")])).
Proof.
  split.
  - apply (sendVote_ledger toyPublicKey toyEventHash toySignature
             clientNoTaker "sk" "author" "target" 1 1000).
    + reflexivity.
    + discriminate.
    + reflexivity.
    + intros H. vm_compute in H. discriminate H.
    + exists relaySilent. split; [apply list_elem_of_here|reflexivity].
  - apply (sendVote_ledger toyPublicKey toyEventHash toySignature
             clientBroken "sk" "author" "target" 1 1000).
    + reflexivity.
    + discriminate.
    + reflexivity.
    + intros H. vm_compute in H. discriminate H.
    + exists relayBroken. split; [apply list_elem_of_here|reflexivity].
Defined.

(** C10 as stated fails: a relay is connected, and no relay accepts the
    vote (the connected one refuses it, the other is not connected); the
    ledger is updated all the same, with the signal of a successful vote. *)
Lemma sendVote_unaccepted_counterexample :
  let c' := sendVote toyPublicKey toyEventHash toySignature
              clientNoTaker "author" "target" 1 1000 in
  relays clientNoTaker = [relaySilent; relayOffline] ∧
  status relaySilent = 1 ∧ size (connectedRelays clientNoTaker) = 1%nat ∧
  sentVote toyPublicKey toyEventHash toySignature
    clientNoTaker "sk" "author" "target" 1 1000 = upvoteEvent ∧
  publish relaySilent upvoteEvent = PublishSettles false ∧
  length (acceptedBy (relays clientNoTaker) upvoteEvent) = 0%nat ∧
  localVotes clientNoTaker !! "target" = None ∧
  localVotes c' !! "target" = Some 1 ∧
  toasts c' = [("Upvoted", "success")].
Proof.
  simpl. split; [reflexivity|]. split; [reflexivity|]. by vm_compute.
Qed.

(** A [publish] that throws leaves the ledger alone. *)
Example sendVote_broken_sample :
  let c' := sendVote toyPublicKey toyEventHash toySignature
              clientBroken "author" "target" 1 1000 in
  localVotes c' !! "target" = None ∧ toasts c' = [("Vote failed", "error")].
Proof. by vm_compute. Qed.

(** * Further properties *)

(** ** More on the vote resolution *)

Section ScoreFurther.

Variable Number : string → number.

Lemma voteTriple_sign (ev : Event) (v : string) (t s : Z) :
  voteTriple Number ev = Some (v, t, s) → s = 1 ∨ s = -1 ∨ s = 0.
Proof.
  unfold voteTriple. intros H. repeat case_match; simplify_eq.
  unfold includes in *. case_bool_decide as Hin; [|done].
  apply elem_of_cons in Hin as [?|Hin]; [by left|].
  apply elem_of_cons in Hin as [?|Hin]; [right; by left|].
  apply list_elem_of_singleton in Hin. right; by right.
Qed.

Lemma sumSigns_empty : sumSigns ∅ = 0.
Proof. unfold sumSigns. by rewrite map_fold_empty. Qed.

Lemma sumSigns_insert_fresh (m : gmap string Latest) (v : string) (L : Latest) :
  m !! v = None → sumSigns (<[v := L]> m) = sumSigns m + L.(sign).
Proof.
  intros Hv. unfold sumSigns.
  rewrite (map_fold_insert_L _ _ v L m); [done| |done]. intros; lia.
Qed.

Lemma sumSigns_insert (m : gmap string Latest) (v : string) (L : Latest) :
  sumSigns (<[v := L]> m) =
  sumSigns m - match m !! v with Some old => old.(sign) | None => 0 end
  + L.(sign).
Proof.
  rewrite (sumSigns_delete (<[v := L]> m) v L) by apply lookup_insert_eq.
  rewrite delete_insert_eq.
  destruct (m !! v) as [old|] eqn:Hv.
  - rewrite (sumSigns_delete m v old Hv). lia.
  - rewrite delete_id by done. lia.
Qed.

Lemma sumSigns_bound (m : gmap string Latest) :
  (∀ v L, m !! v = Some L → -1 ≤ L.(sign) ≤ 1) →
  - Z.of_nat (size m) ≤ sumSigns m ≤ Z.of_nat (size m).
Proof.
  induction m as [|v L m Hv IH] using map_ind; intros Hall.
  - rewrite sumSigns_empty, map_size_empty. lia.
  - rewrite sumSigns_insert_fresh, map_size_insert_None by done.
    pose proof (Hall v L (lookup_insert_eq _ _ _)).
    assert (- Z.of_nat (size m) ≤ sumSigns m ≤ Z.of_nat (size m)); [|lia].
    apply IH. intros v' L' Hv'. apply (Hall v').
    rewrite lookup_insert_ne; [done|]. intros ->. congruence.
Qed.

Lemma latestByVoter_size (votes : list Event) :
  (size (latestByVoter Number votes) ≤ length votes)%nat.
Proof.
  induction votes as [|ev votes IH] using rev_ind; [done|].
  rewrite latestByVoter_snoc, scoreStep_voteTriple, length_app. simpl.
  destruct (voteTriple Number ev) as [[[v t] s]|]; [|lia].
  destruct (latestByVoter Number votes !! v) as [prev|] eqn:Hv.
  - destruct (t >? ts prev); [|lia].
    rewrite map_size_insert_Some by done. lia.
  - rewrite map_size_insert_None by done. lia.
Qed.

(** X1: the score lies between minus and plus the number of voters that
    have an entry, which is at most the number of events: no voter weighs
    more than one vote, however many events carry the voter's pubkey. *)
Theorem computeScore_bounded (votes : list Event) :
  let voters := Z.of_nat (size (latestByVoter Number votes)) in
  - voters ≤ computeScore Number votes ≤ voters ∧
  voters ≤ Z.of_nat (length votes).
Proof.
  simpl. split.
  - apply sumSigns_bound. intros v L Hv.
    destruct (latestByVoter_Some_inv Number votes v L Hv) as (e & _ & He).
    apply voteTriple_sign in He. lia.
  - pose proof (latestByVoter_size votes). lia.
Qed.

Lemma sumSigns_scoreStep (m : gmap string Latest) (ev : Event) :
  sumSigns (scoreStep Number m ev) = sumSigns m + scoreDelta Number m ev.
Proof.
  rewrite scoreStep_voteTriple. unfold scoreDelta.
  destruct (voteTriple Number ev) as [[[v t] s]|]; [|lia].
  destruct (m !! v) as [prev|] eqn:Hv.
  - destruct (t >? ts prev); [|lia]. rewrite sumSigns_insert, Hv. simpl. lia.
  - rewrite sumSigns_insert, Hv. simpl. lia.
Qed.

(** X2: resolving one more event changes the score by the difference
    between its sign and the sign kept for its voter, when the event is a
    vote with a later timestamp than the entry (or the voter's first vote),
    and by nothing otherwise: a vote that is not later than the entry, or an
    event that is no vote, leaves the score as it is. *)
Theorem computeScore_snoc (votes : list Event) (ev : Event) :
  computeScore Number (votes ++ [ev]) =
  computeScore Number votes +
  match voteTriple Number ev with
  | None => 0
  | Some (v, t, s) =>
    match latestByVoter Number votes !! v with
    | None => s
    | Some prev => if t >? prev.(ts) then s - prev.(sign) else 0
    end
  end.
Proof.
  unfold computeScore. rewrite latestByVoter_snoc. apply sumSigns_scoreStep.
Qed.

(** The entry of a voter is decided by the events from the voter's first
    vote on. *)
Lemma latestByVoter_app_lookup (l1 l2 : list Event) (v : string) :
  (∀ e, e ∈ l1 → voterOf Number e ≠ Some v) →
  latestByVoter Number (l1 ++ l2) !! v = latestByVoter Number l2 !! v.
Proof.
  intros Hl1. induction l2 as [|ev l2 IH] using rev_ind.
  - rewrite app_nil_r.
    destruct (latestByVoter Number l1 !! v) as [L|] eqn:Hv; [|done].
    destruct (latestByVoter_Some_inv Number l1 v L Hv) as (e & Hin & He).
    exfalso. apply (Hl1 e Hin). unfold voterOf. by rewrite He.
  - rewrite app_assoc, !latestByVoter_snoc.
    destruct (decide (voterOf Number ev = Some v)) as [Hev|Hev].
    + unfold voterOf in Hev.
      destruct (voteTriple Number ev) as [[[v' t] s]|] eqn:Htr; simplify_eq/=.
      pose proof (scoreStep_lookup_eq Number (latestByVoter Number (l1 ++ l2))
                    ev v t s Htr) as H1.
      pose proof (scoreStep_lookup_eq Number (latestByVoter Number l2)
                    ev v t s Htr) as H2.
      rewrite IH in H1.
      destruct (latestByVoter Number l2 !! v) as [prev|];
        [destruct (t >? ts prev)|]; congruence.
    + by rewrite !scoreStep_lookup_ne.
Qed.

(** X3: when no voter has a vote in both of two lists, the score of the
    two lists one after the other is the sum of their scores. *)
Theorem computeScore_app_disjoint (l1 l2 : list Event) :
  disjointVoters Number l1 l2 →
  computeScore Number (l1 ++ l2) = computeScore Number l1 + computeScore Number l2.
Proof.
  intros Hdisj. induction l2 as [|ev l2 IH] using rev_ind.
  - rewrite app_nil_r. unfold computeScore at 3, latestByVoter. simpl.
    rewrite sumSigns_empty. lia.
  - unfold computeScore in *. rewrite app_assoc, !latestByVoter_snoc.
    rewrite !sumSigns_scoreStep, IH.
    + assert (Hd : scoreDelta Number (latestByVoter Number (l1 ++ l2)) ev =
                   scoreDelta Number (latestByVoter Number l2) ev); [|lia].
      unfold scoreDelta.
      destruct (voteTriple Number ev) as [[[v t] s]|] eqn:Htr; [|done].
      rewrite latestByVoter_app_lookup; [done|].
      intros e Hin Hv. eapply (Hdisj e ev v); [done| |done|].
      * apply elem_of_app. right. apply list_elem_of_here.
      * unfold voterOf. by rewrite Htr.
    + intros e1 e2 v Hin1 Hin2. apply Hdisj; [done|].
      apply elem_of_app. by left.
Qed.

(** Events that repeat events of the input do not change the entries. *)
Lemma latestByVoter_repeats (l repeats : list Event) :
  (∀ e, e ∈ repeats → e ∈ l) →
  latestByVoter Number (l ++ repeats) = latestByVoter Number l.
Proof.
  revert l. induction repeats as [|e repeats IH]; intros l Hin.
  - by rewrite app_nil_r.
  - change (e :: repeats) with ([e] ++ repeats). rewrite app_assoc, IH.
    + rewrite latestByVoter_snoc. apply scoreStep_duplicate.
      apply Hin, list_elem_of_here.
    + intros e' He'. apply elem_of_app. left.
      apply Hin. by apply list_elem_of_further.
Qed.

End ScoreFurther.

(** ** More on the relay collection *)

Lemma collect_fold_inTime (timeoutMs : Z) (arrivals : list (Z * Event)) (out : Obj) :
  foldl (λ (out : Obj) '(t, ev),
           if t <? timeoutMs then objSet out (propKey (id ev)) ev else out)
        out arrivals =
  foldl (λ (out : Obj) ev, objSet out (idKey ev) ev) out (inTime timeoutMs arrivals).
Proof.
  unfold inTime. revert out.
  induction arrivals as [|[t ev] arrivals IH]; intros out; [done|]. simpl.
  destruct (Z.ltb_spec t timeoutMs) as [Hlt|Hge].
  - rewrite filter_cons_True by done. simpl. apply IH.
  - rewrite filter_cons_False by (simpl; lia). apply IH.
Qed.

Lemma objSet_elem_of_key (out : Obj) (k : string) (v : Event) :
  (k, v) ∈ objSet out k v.
Proof.
  induction out as [|[k' v'] out IH]; simpl; [apply list_elem_of_here|].
  destruct (decide (k' = k)); [apply list_elem_of_here|].
  by apply list_elem_of_further.
Qed.

Lemma objSet_elem_of_other (out : Obj) (k : string) (v : Event)
    (k0 : string) (v0 : Event) :
  k0 ≠ k → (k0, v0) ∈ out → (k0, v0) ∈ objSet out k v.
Proof.
  intros Hne. induction out as [|[k' v'] out IH]; simpl;
    [by intros ?%elem_of_nil|].
  intros [Heq|Hin]%elem_of_cons.
  - injection Heq as <- <-. rewrite decide_False by done. apply list_elem_of_here.
  - destruct (decide (k' = k)); apply list_elem_of_further; [done|by apply IH].
Qed.

Lemma objSet_elem_of_iff (out : Obj) (k : string) (v : Event)
    (k0 : string) (v0 : Event) :
  NoDup out.*1 →
  (k0, v0) ∈ objSet out k v ↔ (k0, v0) = (k, v) ∨ (k0 ≠ k ∧ (k0, v0) ∈ out).
Proof.
  intros Hnd. split.
  - intros Hin. destruct (decide (k0 = k)) as [->|Hne].
    + left. f_equal.
      assert (Heq : (k, v0) = (k, v)); [|by injection Heq].
      apply (NoDup_fmap_eq fst (objSet out k v));
        [by apply objSet_NoDup|done|apply objSet_elem_of_key|done].
    + apply objSet_elem_of in Hin as [Heq|Hin]; [by left|by right].
  - intros [Heq | [Hne Hin] ]; [injection Heq as -> ->|];
      [apply objSet_elem_of_key|by apply objSet_elem_of_other].
Qed.

(** The object after the listener has run for [evs]. *)
Lemma collected_invariant (evs : list Event) :
  let out := foldl (λ (out : Obj) ev, objSet out (idKey ev) ev) [] evs in
  keyedById out ∧ NoDup out.*1.
Proof.
  simpl. induction evs as [|e evs IH] using rev_ind.
  - split; [intros k ev Hin; by apply elem_of_nil in Hin|apply NoDup_nil_2].
  - rewrite foldl_app. simpl. destruct IH as [Hk Hnd].
    split; [by apply objSet_keyedById|by apply objSet_NoDup].
Qed.

Lemma collected_elem_of (evs : list Event) (ev : Event) :
  ev ∈ objValues (foldl (λ (out : Obj) ev, objSet out (idKey ev) ev) [] evs) ↔
  lastWithKey evs ev.
Proof.
  revert ev. induction evs as [|e evs IH] using rev_ind; intros ev.
  - split; [by intros ?%elem_of_nil|].
    intros (l1 & l2 & Heq & _). by destruct l1.
  - destruct (collected_invariant evs) as [Hk Hnd].
    destruct (collected_invariant (evs ++ [e])) as [Hk' _].
    rewrite foldl_app in *. simpl in *.
    set (out := foldl (λ (out : Obj) ev, objSet out (idKey ev) ev) [] evs) in *.
    assert (Hval : ∀ (o : Obj) x, keyedById o → x ∈ objValues o ↔ (idKey x, x) ∈ o).
    { intros o x Ho. unfold objValues. split.
      - intros ([k x'] & -> & Hin)%list_elem_of_fmap. simpl. unfold idKey.
        by rewrite <- (Ho k x' Hin).
      - intros Hin. apply list_elem_of_fmap. by exists (idKey x, x). }
    rewrite (Hval _ ev Hk'), (objSet_elem_of_iff out _ _ _ _ Hnd).
    rewrite <- (Hval out ev Hk), IH. split.
    + intros [Heq | [Hne (l1 & l2 & -> & Hlast)] ]; [injection Heq as _ ->|].
      * exists evs, []. split; [done|]. by intros ? ?%elem_of_nil.
      * exists l1, (l2 ++ [e]). split; [by rewrite <- app_assoc|].
        intros e' [?| ->%list_elem_of_singleton]%elem_of_app; [by apply Hlast|done].
    + intros (l1 & l2 & Heq & Hlast).
      destruct l2 as [|x l2 _] using rev_ind.
      * apply app_inj_tail in Heq as [_ ->]. by left.
      * right. change (ev :: l2 ++ [x]) with ((ev :: l2) ++ [x]) in Heq.
        rewrite app_assoc in Heq. apply app_inj_tail in Heq as [-> <-].
        split.
        -- intros Heq. apply (Hlast e); [|done].
           apply elem_of_app. right. apply list_elem_of_here.
        -- exists l1, l2. split; [done|]. intros e' He'. apply Hlast.
           apply elem_of_app. by left.
Qed.

Lemma collected_key_kept (evs : list Event) (e : Event) :
  e ∈ evs →
  ∃ ev, ev ∈ objValues (foldl (λ (out : Obj) ev, objSet out (idKey ev) ev) [] evs)
        ∧ idKey ev = idKey e.
Proof.
  induction evs as [|x evs IH] using rev_ind; [by intros ?%elem_of_nil|].
  intros Hin. destruct (decide (idKey e = idKey x)) as [Heq|Hne].
  - exists x. split; [|done]. apply collected_elem_of.
    exists evs, []. split; [done|]. by intros ? ?%elem_of_nil.
  - apply elem_of_app in Hin as [Hin|Hin%list_elem_of_singleton]; [|by subst].
    destruct (IH Hin) as (ev & Hev & Hkey). exists ev. split; [|done].
    apply collected_elem_of in Hev as (l1 & l2 & -> & Hlast).
    apply collected_elem_of. exists l1, (l2 ++ [x]).
    split; [by rewrite <- app_assoc|].
    intros e' [?| ->%list_elem_of_singleton]%elem_of_app; [by apply Hlast|].
    congruence.
Qed.

Lemma inTime_mono (t1 t2 : Z) (arrivals : list (Z * Event)) (ev : Event) :
  t1 ≤ t2 → ev ∈ inTime t1 arrivals → ev ∈ inTime t2 arrivals.
Proof.
  unfold inTime. intros Hle ([t e] & -> & Hin)%list_elem_of_fmap.
  apply list_elem_of_filter in Hin as [Hlt Hin]. simpl in *.
  apply list_elem_of_fmap. exists (t, e). split; [done|].
  apply list_elem_of_filter. simpl. split; [lia|done].
Qed.

Lemma collectFromRelay_Delivers (relay : Relay) (filters : list Filter)
    (timeoutMs : Z) (arrivals : list (Z * Event)) :
  sub relay filters = Delivers arrivals →
  collectFromRelay relay filters timeoutMs =
  Fulfilled (objValues (foldl (λ (out : Obj) ev, objSet out (idKey ev) ev) []
                          (inTime timeoutMs arrivals))).
Proof.
  intros Hsub. unfold collectFromRelay. by rewrite Hsub, collect_fold_inTime.
Qed.

(** X4: the collection of a relay holds, for every id that arrived before
    the timer fired, the last event that arrived with that id before the
    timer fired, and nothing else: a later event replaces an earlier one
    with its id, and what arrives once the timer has fired is not
    counted. *)
Theorem collectFromRelay_last_write (relay : Relay) (filters : list Filter)
    (timeoutMs : Z) (arrivals : list (Z * Event)) :
  sub relay filters = Delivers arrivals →
  ∃ events,
    collectFromRelay relay filters timeoutMs = Fulfilled events ∧
    ∀ ev, ev ∈ events ↔ lastWithKey (inTime timeoutMs arrivals) ev.
Proof.
  intros Hsub. eexists. split; [by apply collectFromRelay_Delivers|].
  intros ev. apply collected_elem_of.
Qed.

(** X5: a longer timeout never loses an id: every id in the collection made
    with a timeout is in the collection made with a longer one. *)
Theorem collectFromRelay_timeout_mono (relay : Relay) (filters : list Filter)
    (t1 t2 : Z) (arrivals : list (Z * Event)) (events1 : list Event) :
  sub relay filters = Delivers arrivals →
  t1 ≤ t2 →
  collectFromRelay relay filters t1 = Fulfilled events1 →
  ∃ events2,
    collectFromRelay relay filters t2 = Fulfilled events2 ∧
    ∀ ev1, ev1 ∈ events1 → ∃ ev2, ev2 ∈ events2 ∧ idKey ev2 = idKey ev1.
Proof.
  intros Hsub Hle Hc1.
  rewrite (collectFromRelay_Delivers _ _ _ _ Hsub) in Hc1. injection Hc1 as <-.
  eexists. split; [by apply collectFromRelay_Delivers|].
  intros ev1 Hev1. apply collected_key_kept.
  apply collected_elem_of in Hev1 as (l1 & l2 & Heq & _).
  apply (inTime_mono t1 t2); [done|]. rewrite Heq.
  apply elem_of_app. right. apply list_elem_of_here.
Qed.

Lemma relayContribution_inTime (eventIdHex : string) (timeoutMs : Z)
    (relay : Relay) (ev : Event) :
  ev ∈ relayContribution eventIdHex timeoutMs relay →
  ∃ arrivals, sub relay (voteFilters eventIdHex) = Delivers arrivals ∧
              ev ∈ inTime timeoutMs arrivals.
Proof.
  unfold relayContribution.
  destruct (sub relay (voteFilters eventIdHex)) as [|arrivals] eqn:Hsub.
  - unfold collectFromRelay. rewrite Hsub. by intros ?%elem_of_nil.
  - rewrite (collectFromRelay_Delivers _ _ _ _ Hsub).
    intros (l1 & l2 & Heq & _)%collected_elem_of.
    exists arrivals. split; [done|]. rewrite Heq.
    apply elem_of_app. right. apply list_elem_of_here.
Qed.

Lemma elem_of_concat_inv {A} (x : A) (ls : list (list A)) :
  x ∈ concat ls → ∃ l, x ∈ l ∧ l ∈ ls.
Proof.
  induction ls as [|l ls IH]; simpl; [by intros ?%elem_of_nil|].
  intros [Hx|Hx]%elem_of_app.
  - exists l. split; [done|apply list_elem_of_here].
  - destruct (IH Hx) as (l' & ? & ?). exists l'.
    split; [done|by apply list_elem_of_further].
Qed.

(** X6: the relays are collected one after the other and independently:
    the merged collection of two lists of relays is the merged collection of
    the first followed by that of the second, and each of its events was
    handed over by one of the relays before the timeout. *)
Theorem fetchVotesForPost_app (rs1 rs2 : list Relay) (eventIdHex : string)
    (timeoutMs : Z) :
  fetchVotesForPost (rs1 ++ rs2) eventIdHex timeoutMs =
    fetchVotesForPost rs1 eventIdHex timeoutMs ++
    fetchVotesForPost rs2 eventIdHex timeoutMs ∧
  ∀ ev, ev ∈ fetchVotesForPost rs1 eventIdHex timeoutMs →
        ∃ relay arrivals,
          relay ∈ rs1 ∧
          sub relay (voteFilters eventIdHex) = Delivers arrivals ∧
          ev ∈ inTime timeoutMs arrivals.
Proof.
  split.
  - by rewrite !fetchVotesForPost_concat, fmap_app, concat_app.
  - intros ev. rewrite fetchVotesForPost_concat.
    intros (l & Hev & Hl)%elem_of_concat_inv.
    apply list_elem_of_fmap in Hl as (relay & -> & Hrelay).
    destruct (relayContribution_inTime _ _ _ _ Hev) as (arrivals & ? & ?).
    by exists relay, arrivals.
Qed.

(** ** The score label *)

Lemma scoreLabel_inj (z1 z2 : Z) : scoreLabel z1 = scoreLabel z2 → z1 = z2.
Proof.
  unfold scoreLabel.
  destruct (Z.gtb_spec z1 0) as [H1|H1]; destruct (Z.gtb_spec z2 0) as [H2|H2].
  - intros [= H]. by apply (inj pretty).
  - destruct z2 as [|p|p]; [|lia|]; unfold pretty at 2, pretty_Z; simpl;
      discriminate.
  - destruct z1 as [|p|p]; [|lia|]; unfold pretty at 1, pretty_Z; simpl;
      discriminate.
  - apply (inj pretty).
Qed.

(** X7: the label of a score tells the score: two scores with one label
    are equal; a positive score is shown with a plus sign before its
    digits, and zero and the negative scores as they are written. *)
Theorem scoreLabel_faithful (z1 z2 : Z) :
  (scoreLabel z1 = scoreLabel z2 ↔ z1 = z2) ∧
  scoreLabel z1 = (if bool_decide (0 < z1) then "+" else "") +:+ pretty z1.
Proof.
  split.
  - split; [apply scoreLabel_inj|by intros ->].
  - unfold scoreLabel. destruct (Z.gtb_spec z1 0).
    + by rewrite bool_decide_eq_true_2 by lia.
    + by rewrite bool_decide_eq_false_2 by lia.
Qed.

(** X8: a relay that only hands over events the other relays have handed
    over already does not change the label of the post: an echoed vote is
    counted once. *)
Theorem updateScoreForPost_echo (Number : string → number) (c : Client)
    (relay : Relay) (eventId : string) :
  (∀ ev, ev ∈ relayContribution eventId 4000 relay →
         ev ∈ fetchVotesForPost (relays c) eventId 4000) →
  updateScoreForPost Number (addRelay c relay) eventId =
  updateScoreForPost Number c eventId.
Proof.
  intros Hecho. unfold updateScoreForPost, computeScore. simpl. f_equal. f_equal.
  rewrite (fetchVotesForPost_concat (relays c ++ [relay])), fmap_app, concat_app.
  rewrite <- fetchVotesForPost_concat. simpl. rewrite app_nil_r.
  rewrite latestByVoter_repeats; [done|]. exact Hecho.
Qed.

(** ** More on the feed buffer *)

Lemma bufferIncoming_rendered (c : Client) (ev : option Event) :
  rendered (bufferIncoming c ev) = rendered c.
Proof.
  unfold bufferIncoming. destruct ev as [ev|]; simpl; [|done].
  destruct (id ev); [|done]. by destruct (negb _ || _).
Qed.

Lemma bufferIncoming_feedInv (c : Client) (ev : option Event) :
  feedInv c → feedInv (bufferIncoming c ev).
Proof.
  intros [Hnd Hseen]. destruct ev as [ev|]; [|done].
  rewrite bufferIncoming_Some. destruct (id ev) as [i|] eqn:Hid; [|done].
  destruct (negb (truthy (Some i)) || bool_decide (i ∈ seenIds c)) eqn:Hskip;
    [done|].
  apply orb_false_iff in Hskip as [_ Hfresh].
  apply bool_decide_eq_false in Hfresh.
  split; simpl.
  - rewrite app_assoc, fmap_app. apply NoDup_app. split; [done|].
    split; [|apply NoDup_singleton].
    intros x Hx ->%list_elem_of_singleton. rewrite Hid in Hx.
    apply list_elem_of_fmap in Hx as (ev' & Hid' & Hin').
    destruct (Hseen ev' Hin') as (j & Hj & Hjseen). congruence.
  - intros ev' Hin'. rewrite app_assoc in Hin'.
    apply elem_of_app in Hin' as [Hin'|Hin'%list_elem_of_singleton].
    + destruct (Hseen ev' Hin') as (j & ? & ?). exists j. split; [done|].
      apply elem_of_union. by right.
    + subst ev'. exists i. split; [done|].
      apply elem_of_union. left. by apply elem_of_singleton.
Qed.

Lemma flushBufferToFeed_feedInv (c : Client) :
  feedInv c → feedInv (flushBufferToFeed c).
Proof.
  intros [Hnd Hseen].
  assert (Hperm : rendered (flushBufferToFeed c) ++ buffer (flushBufferToFeed c)
                  ≡ₚ rendered c ++ buffer c).
  { rewrite flushBufferToFeed_rendered, flushBufferToFeed_buffer, app_nil_r.
    by rewrite arraySort_Permutation. }
  split.
  - by rewrite Hperm.
  - intros ev Hin. rewrite Hperm in Hin. rewrite flushBufferToFeed_seenIds.
    by apply Hseen.
Qed.

Lemma runFeed_feedInv (c : Client) (ops : list FeedOp) :
  feedInv c → feedInv (runFeed c ops).
Proof.
  unfold runFeed. revert c. induction ops as [|op ops IH]; intros c Hinv; [done|].
  simpl. apply IH. destruct op as [ev|]; simpl;
    [by apply bufferIncoming_feedInv|by apply flushBufferToFeed_feedInv].
Qed.

Lemma subscribeNotes_feedInv (c : Client) (relay : Relay) :
  feedInv c → feedInv (subscribeNotes c relay).
Proof.
  unfold subscribeNotes. destruct (sub relay _) as [|arrivals]; [done|].
  revert c. induction arrivals as [|[t ev] arrivals IH]; intros c Hinv; [done|].
  apply (IH (bufferIncoming c (Some ev))). by apply bufferIncoming_feedInv.
Qed.

Lemma fetchRecentBurst_feedInv (c : Client) (relay : Relay) :
  feedInv c → feedInv (fetchRecentBurst c relay).
Proof.
  unfold fetchRecentBurst. destruct (sub relay _) as [|arrivals]; [done|].
  revert c. induction arrivals as [|[t ev] arrivals IH]; intros c Hinv; [done|].
  apply (IH (if t <? 2500 then bufferIncoming c (Some ev) else c)).
  destruct (t <? 2500); [by apply bufferIncoming_feedInv|done].
Qed.

(** X9: along any run of incoming events and flushes, and through the two
    subscriptions of a relay, the notes rendered or pending keep pairwise
    distinct ids, all of them recorded in [seenIds]: on the path through the
    buffer no id is rendered twice, however often the relays repeat an
    event. *)
Theorem runFeed_no_repeat (c : Client) (ops : list FeedOp) (relay : Relay) :
  feedInv c →
  feedInv (runFeed c ops) ∧
  NoDup (id <$> rendered (runFeed c ops)) ∧
  feedInv (fetchRecentBurst (subscribeNotes c relay) relay).
Proof.
  intros Hinv. pose proof (runFeed_feedInv c ops Hinv) as Hrun.
  split; [done|]. split.
  - destruct Hrun as [Hnd _]. rewrite fmap_app in Hnd.
    by apply NoDup_app in Hnd as [? _].
  - by apply fetchRecentBurst_feedInv, subscribeNotes_feedInv.
Qed.

(** X10: a note that was pending stays known after the flush: handed to
    [bufferIncoming] again, it is not buffered a second time, and the client
    is left as the flush left it. *)
Theorem flushBufferToFeed_then_incoming (c : Client) (ev : Event) :
  bufferSeen c → ev ∈ buffer c →
  bufferIncoming (flushBufferToFeed c) (Some ev) = flushBufferToFeed c.
Proof.
  intros Hseen Hin. destruct (Hseen ev Hin) as (i & Hid & Hi).
  apply (bufferIncoming_seen _ ev i Hid). by rewrite flushBufferToFeed_seenIds.
Qed.

Lemma render_fold_feed_take (l : list Event) (c : Client) :
  l ≠ [] →
  feed (foldl (λ c ev, renderNote c ev true) c l) =
  take 200 (feed (foldl (λ c ev, renderNote c ev true) c l)).
Proof.
  intros Hne. destruct l as [|ev l _] using rev_ind; [done|].
  rewrite foldl_app. simpl. by rewrite take_take.
Qed.

(** X11: a flush of a non-empty buffer leaves in the feed the flushed notes
    in the reverse of the order in which they were rendered, the oldest of
    them on top, above what the feed held before, and never more than 200
    notes. *)
Theorem flushBufferToFeed_feed_order (c : Client) :
  buffer c ≠ [] →
  feed (flushBufferToFeed c) =
    take 200 (reverse (arraySort compareFn (buffer c)) ++ feed c) ∧
  (length (feed (flushBufferToFeed c)) ≤ 200)%nat.
Proof.
  intros Hne.
  assert (Hfeed : feed (flushBufferToFeed c) =
                  take 200 (reverse (arraySort compareFn (buffer c)) ++ feed c)).
  { rewrite <- flushBufferToFeed_feed. unfold flushBufferToFeed.
    rewrite bool_decide_eq_false_2 by done. simpl.
    apply render_fold_feed_take. intros Hnil.
    apply Hne. apply Permutation_nil_r. rewrite <- Hnil.
    by rewrite arraySort_Permutation. }
  split; [done|]. rewrite Hfeed, length_take. lia.
Qed.

(** ** More on the miner *)

Section MinerFurther.

Variable getPublicKey : string → string.
Variable getEventHash : Event → string.
Variable getSignature : Event → string → string.

Lemma mineLoop_step (remaining : nat) (unsigned : Event) (sk : string)
    (powBits maxIters nonce : Z) (calls : nat) :
  nonce < maxIters →
  mineLoop getPublicKey getEventHash getSignature (S remaining) unsigned sk
    (nibblesOf powBits) (repeatStr "0" (Z.to_nat (nibblesOf powBits)))
    maxIters nonce calls =
  if meetsTarget powBits
       (attempt getPublicKey getEventHash getSignature unsigned sk nonce)
  then (attempt getPublicKey getEventHash getSignature unsigned sk nonce, S calls)
  else mineLoop getPublicKey getEventHash getSignature remaining unsigned sk
         (nibblesOf powBits) (repeatStr "0" (Z.to_nat (nibblesOf powBits)))
         maxIters (nonce + 1) (S calls).
Proof. intros Hlt. simpl. by rewrite (proj2 (Z.ltb_lt _ _) Hlt). Qed.

(** The loop from [nonce] on, when the first attempt that meets the target
    is the one with the nonce [n]. *)
Lemma mineLoop_first_success (k : nat) (unsigned : Event) (sk : string)
    (powBits maxIters nonce : Z) (calls : nat) :
  let n := nonce + Z.of_nat k in
  n < maxIters →
  (∀ j, nonce ≤ j < n →
        meetsTarget powBits
          (attempt getPublicKey getEventHash getSignature unsigned sk j) = false) →
  meetsTarget powBits
    (attempt getPublicKey getEventHash getSignature unsigned sk n) = true →
  mineLoop getPublicKey getEventHash getSignature (Z.to_nat (maxIters - nonce))
    unsigned sk (nibblesOf powBits)
    (repeatStr "0" (Z.to_nat (nibblesOf powBits))) maxIters nonce calls =
  (attempt getPublicKey getEventHash getSignature unsigned sk n,
   (calls + k + 1)%nat).
Proof.
  revert nonce calls. induction k as [|k IH]; intros nonce calls n Hlt Hfail Hok.
  - subst n. rewrite Z.add_0_r in *.
    replace (Z.to_nat (maxIters - nonce))
      with (S (Z.to_nat (maxIters - (nonce + 1)))) by lia.
    rewrite mineLoop_step, Hok by done. f_equal. lia.
  - replace (Z.to_nat (maxIters - nonce))
      with (S (Z.to_nat (maxIters - (nonce + 1)))) by lia.
    rewrite mineLoop_step by lia. rewrite Hfail by lia.
    replace n with (nonce + 1 + Z.of_nat k) in * by lia.
    rewrite IH; [f_equal; lia|lia| |done].
    intros j Hj. apply Hfail. lia.
Qed.

(** The loop from [nonce] on, when no attempt meets the target. *)
Lemma mineLoop_exhausted (remaining : nat) (unsigned : Event) (sk : string)
    (powBits maxIters nonce : Z) (calls : nat) :
  remaining = Z.to_nat (maxIters - nonce) →
  (∀ j, nonce ≤ j < maxIters →
        meetsTarget powBits
          (attempt getPublicKey getEventHash getSignature unsigned sk j) = false) →
  mineLoop getPublicKey getEventHash getSignature remaining
    unsigned sk (nibblesOf powBits)
    (repeatStr "0" (Z.to_nat (nibblesOf powBits))) maxIters nonce calls =
  (finishEvent getPublicKey getEventHash getSignature unsigned sk,
   (calls + remaining + 1)%nat).
Proof.
  revert nonce calls. induction remaining as [|remaining IH];
    intros nonce calls Hrem Hfail.
  - simpl. f_equal. lia.
  - rewrite mineLoop_step by lia. rewrite Hfail by lia.
    rewrite IH; [f_equal; lia|lia|]. intros j Hj. apply Hfail. lia.
Qed.

(** X12: the miner returns the event of the first attempt whose id meets
    the target: when the nonce [n] is below [maxIters], the attempts with
    the nonces before [n] miss the target and the attempt with [n] meets it,
    the result is the payload signed with the tag [['nonce', n]], after
    [n + 1] signing calls. *)
Theorem mineAndFinish_first_success (unsigned : Event) (sk : string)
    (powBits maxIters : Z) (n : nat) :
  Z.of_nat n < maxIters →
  (∀ j, 0 ≤ j < Z.of_nat n →
        meetsTarget powBits
          (attempt getPublicKey getEventHash getSignature unsigned sk j) = false) →
  meetsTarget powBits
    (attempt getPublicKey getEventHash getSignature unsigned sk (Z.of_nat n))
    = true →
  mineAndFinishCounted getPublicKey getEventHash getSignature
    unsigned sk powBits maxIters =
  (attempt getPublicKey getEventHash getSignature unsigned sk (Z.of_nat n),
   S n) ∧
  tags (mineAndFinish getPublicKey getEventHash getSignature
          unsigned sk powBits maxIters) =
  tags unsigned ++ [["nonce"; pretty (Z.of_nat n)]].
Proof.
  intros Hlt Hfail Hok.
  pose proof (mineLoop_first_success n unsigned sk powBits maxIters 0 0) as H.
  simpl in H. rewrite Z.sub_0_r in H. specialize (H Hlt Hfail Hok).
  assert (Hc : mineAndFinishCounted getPublicKey getEventHash getSignature
                 unsigned sk powBits maxIters =
               (attempt getPublicKey getEventHash getSignature unsigned sk
                  (Z.of_nat n), S n)).
  { unfold mineAndFinishCounted. fold (nibblesOf powBits). rewrite H.
    f_equal. lia. }
  split; [done|]. unfold mineAndFinish. by rewrite Hc.
Qed.

(** X13: when no attempt below [maxIters] meets the target, the miner gives
    up after [maxIters] attempts and returns the payload signed as it is,
    without a nonce tag: [maxIters + 1] signing calls in all, and a single
    one when [maxIters] is 0 or less. *)
Theorem mineAndFinish_exhausted (unsigned : Event) (sk : string)
    (powBits maxIters : Z) :
  (∀ j, 0 ≤ j < maxIters →
        meetsTarget powBits
          (attempt getPublicKey getEventHash getSignature unsigned sk j) = false) →
  mineAndFinishCounted getPublicKey getEventHash getSignature
    unsigned sk powBits maxIters =
  (finishEvent getPublicKey getEventHash getSignature unsigned sk,
   S (Z.to_nat maxIters)) ∧
  tags (mineAndFinish getPublicKey getEventHash getSignature
          unsigned sk powBits maxIters) = tags unsigned.
Proof.
  intros Hfail.
  assert (Hc : mineAndFinishCounted getPublicKey getEventHash getSignature
                 unsigned sk powBits maxIters =
               (finishEvent getPublicKey getEventHash getSignature unsigned sk,
                S (Z.to_nat maxIters))).
  { unfold mineAndFinishCounted. fold (nibblesOf powBits).
    rewrite (mineLoop_exhausted (Z.to_nat maxIters)); [f_equal; lia|f_equal; lia|done]. }
  split; [done|]. unfold mineAndFinish. by rewrite Hc.
Qed.

(** X14: the difficulty counts in whole hex digits: below 4 bits, and for
    a negative number of bits, the miner behaves as at difficulty 0, and
    between two multiples of 4 as at the lower one. *)
Theorem mineAndFinish_difficulty_rounding (unsigned : Event) (sk : string)
    (powBits maxIters : Z) :
  mineAndFinishCounted getPublicKey getEventHash getSignature
    unsigned sk powBits maxIters =
  mineAndFinishCounted getPublicKey getEventHash getSignature
    unsigned sk (4 * Z.max 0 (powBits / 4)) maxIters ∧
  (powBits < 4 →
   mineAndFinishCounted getPublicKey getEventHash getSignature
     unsigned sk powBits maxIters =
   mineAndFinishCounted getPublicKey getEventHash getSignature
     unsigned sk 0 maxIters).
Proof.
  assert (Hround : ∀ b, Z.max 0 (4 * Z.max 0 (b / 4) / 4) = Z.max 0 (b / 4)).
  { intros b. rewrite (Z.mul_comm 4), Z.div_mul by done. lia. }
  split.
  - unfold mineAndFinishCounted. by rewrite Hround.
  - intros Hlt. unfold mineAndFinishCounted.
    assert (Hz : Z.max 0 (powBits / 4) = 0).
    { assert (powBits / 4 ≤ 0); [|lia].
      assert (powBits / 4 < 1); [|lia].
      apply Z.div_lt_upper_bound; lia. }
    by rewrite Hz.
Qed.

Lemma mineLoop_payload (remaining : nat) (unsigned : Event) (sk : string)
    (nibbles : Z) (targetPrefix : string) (maxIters nonce : Z) (calls : nat) :
  0 ≤ nonce →
  let ev := (mineLoop getPublicKey getEventHash getSignature remaining
               unsigned sk nibbles targetPrefix maxIters nonce calls).1 in
  kind ev = kind unsigned ∧ created_at ev = created_at unsigned ∧
  content ev = content unsigned ∧ pubkey ev = Some (getPublicKey sk) ∧
  (tags ev = tags unsigned ∨
   ∃ n, 0 ≤ n < maxIters ∧ tags ev = tags unsigned ++ [["nonce"; pretty n]]).
Proof.
  revert nonce calls. induction remaining as [|remaining IH];
    intros nonce calls Hnonce; simpl.
  - repeat split; try done; by left.
  - destruct (Z.ltb_spec nonce maxIters) as [Hlt|Hge]; simpl.
    + destruct (_ || _); simpl.
      * repeat split. right. exists nonce. by split.
      * apply IH. lia.
    + repeat split; try done; by left.
Qed.

Lemma mineAndFinish_fields (unsigned : Event) (sk : string)
    (powBits maxIters : Z) :
  let ev := mineAndFinish getPublicKey getEventHash getSignature
              unsigned sk powBits maxIters in
  kind ev = kind unsigned ∧ created_at ev = created_at unsigned ∧
  content ev = content unsigned ∧ pubkey ev = Some (getPublicKey sk) ∧
  (tags ev = tags unsigned ∨
   ∃ n, 0 ≤ n < maxIters ∧ tags ev = tags unsigned ++ [["nonce"; pretty n]]).
Proof. apply mineLoop_payload. lia. Qed.

(** X15: mining touches nothing but the tags: the event returned has the
    kind, the timestamp and the content of the payload and the public key of
    the signing key, and its tags are those of the payload, followed by at
    most one nonce tag whose value is a number from 0 to [maxIters - 1]. *)
Theorem mineAndFinish_payload (unsigned : Event) (sk : string)
    (powBits maxIters : Z) :
  let ev := mineAndFinish getPublicKey getEventHash getSignature
              unsigned sk powBits maxIters in
  kind ev = kind unsigned ∧ created_at ev = created_at unsigned ∧
  content ev = content unsigned ∧ pubkey ev = Some (getPublicKey sk) ∧
  (tags ev = tags unsigned ∨
   ∃ n, 0 ≤ n < maxIters ∧ tags ev = tags unsigned ++ [["nonce"; pretty n]]).
Proof. apply mineAndFinish_fields. Qed.

End MinerFurther.

(** ** More on voting *)

Section VoteFurther.

Variable Number : string → number.
Variable getPublicKey : string → string.
Variable getEventHash : Event → string.
Variable getSignature : Event → string → string.

(** What [sendVote] leaves alone, and the two things it can do to the
    ledger. *)
Lemma sendVote_frame (c : Client) (authorHex eventIdHex : string) (sign now : Z) :
  let c' := sendVote getPublicKey getEventHash getSignature
              c authorHex eventIdHex sign now in
  privateKey c' = privateKey c ∧ publicKey c' = publicKey c ∧
  relays c' = relays c ∧ connectedRelays c' = connectedRelays c ∧
  seenIds c' = seenIds c ∧ buffer c' = buffer c ∧ feed c' = feed c ∧
  rendered c' = rendered c ∧ alerts c' = alerts c ∧
  (localVotes c' = localVotes c ∨
   localVotes c' =
     <[eventIdHex := nextVoteSign c eventIdHex sign]> (localVotes c)).
Proof.
  simpl. unfold sendVote.
  destruct (negb (truthy (privateKey c)) || negb (truthy (publicKey c)));
    [simpl; repeat split; try done; by left|].
  destruct (privateKey c) as [sk|] eqn:Hsk;
    [|simpl; repeat split; try done; by left].
  destruct (mapPublish _ _); [|simpl; repeat split; try done; by left].
  destruct (bool_decide (nextVoteSign c eventIdHex sign = 0));
    simpl; repeat split; try done; by right.
Qed.

Lemma nextVoteSign_cases (c : Client) (eventIdHex : string) (sign : Z) :
  nextVoteSign c eventIdHex sign = 0 ∨ nextVoteSign c eventIdHex sign = sign.
Proof. unfold nextVoteSign. case_bool_decide; [by left|by right]. Qed.

Lemma sendVote_ledgerInv (c : Client) (authorHex eventIdHex : string)
    (sign now : Z) :
  sign = 1 ∨ sign = -1 → ledgerInv c →
  ledgerInv (sendVote getPublicKey getEventHash getSignature
               c authorHex eventIdHex sign now).
Proof.
  intros Hsign Hinv k z.
  destruct (sendVote_frame c authorHex eventIdHex sign now)
    as (_ & _ & _ & _ & _ & _ & _ & _ & _ & [-> | ->]); [apply Hinv|].
  destruct (decide (eventIdHex = k)) as [->|Hne].
  - rewrite lookup_insert_eq. intros [= <-].
    destruct (nextVoteSign_cases c k sign) as [-> | ->]; lia.
  - rewrite lookup_insert_ne by done. apply Hinv.
Qed.

(** X16: a vote on one note touches the ledger entry of that note only, and
    nothing of the feed; and when the requested sign is +1 or -1 the ledger
    keeps holding only the values -1, 0 and 1. *)
Theorem sendVote_ledger_frame (c : Client) (authorHex eventIdHex : string)
    (sign now : Z) :
  let c' := sendVote getPublicKey getEventHash getSignature
              c authorHex eventIdHex sign now in
  (∀ k, k ≠ eventIdHex → localVotes c' !! k = localVotes c !! k) ∧
  seenIds c' = seenIds c ∧ buffer c' = buffer c ∧ feed c' = feed c ∧
  rendered c' = rendered c ∧
  (sign = 1 ∨ sign = -1 → ledgerInv c → ledgerInv c').
Proof.
  simpl.
  destruct (sendVote_frame c authorHex eventIdHex sign now)
    as (_ & _ & _ & _ & Hs & Hb & Hf & Hr & _ & Hl).
  split.
  - intros k Hk. destruct Hl as [-> | ->]; [done|].
    by rewrite lookup_insert_ne.
  - repeat split; try done. apply sendVote_ledgerInv.
Qed.

Lemma find_app_Some {A} (P : A → bool) (l1 l2 : list A) (x : A) :
  List.find P l1 = Some x → List.find P (l1 ++ l2) = Some x.
Proof.
  induction l1 as [|y l1 IH]; simpl; [done|]. by destruct (P y).
Qed.

Lemma existsb_app_true {A} (P : A → bool) (l1 l2 : list A) :
  existsb P l1 = true → existsb P (l1 ++ l2) = true.
Proof. intros H. by rewrite existsb_app, H. Qed.

(** The vote that [sendVote] signs decodes to the triple it was made
    from. *)
Lemma sentVote_voteTriple (c : Client) (sk authorHex eventIdHex : string)
    (sign now : Z) :
  sign = 1 ∨ sign = -1 →
  (∀ z, -1 ≤ z ≤ 1 → Number (pretty z) = Int z) →
  getPublicKey sk ≠ "" →
  let ev := sentVote getPublicKey getEventHash getSignature
              c sk authorHex eventIdHex sign now in
  voteTriple Number ev =
    Some (getPublicKey sk, now, nextVoteSign c eventIdHex sign) ∧
  specWellFormedVote Number ev = true.
Proof.
  intros Hsign HNumber Hpk ev.
  set (fs := nextVoteSign c eventIdHex sign).
  assert (Hfs : -1 ≤ fs ≤ 1).
  { destruct (nextVoteSign_cases c eventIdHex sign) as [H|H];
      unfold fs; rewrite H; lia. }
  destruct (mineAndFinish_fields getPublicKey getEventHash getSignature
              (voteEvent authorHex eventIdHex fs now) sk 8 15000)
    as (_ & Hts & _ & Hpub & Htags).
  change (mineAndFinish getPublicKey getEventHash getSignature
            (voteEvent authorHex eventIdHex fs now) sk 8 15000)
    with ev in Hts, Hpub, Htags.
  assert (Hshape : ∃ extra, tags ev =
            [["p"; authorHex]; ["e"; eventIdHex]; ["v"; pretty fs];
             ["client"; "nostr_karma_postvote"]] ++ extra).
  { destruct Htags as [Ht|(n & _ & Ht)]; rewrite Ht; [exists []|by eexists].
    by rewrite app_nil_r. }
  destruct Hshape as [extra Hshape].
  assert (Hincl : includes [1; -1; 0] fs = true).
  { unfold includes. apply bool_decide_eq_true.
    assert (fs = 1 ∨ fs = -1 ∨ fs = 0) as [Hv | [Hv | Hv] ] by lia; rewrite Hv.
    - apply list_elem_of_here.
    - apply list_elem_of_further, list_elem_of_here.
    - do 2 apply list_elem_of_further. apply list_elem_of_here. }
  assert (Hfind : List.find (λ t, bool_decide (head t = Some "v")) (tags ev) =
                  Some ["v"; pretty fs]).
  { rewrite Hshape. by apply find_app_Some. }
  split.
  - unfold voteTriple. rewrite Hfind. simpl. rewrite (HNumber fs Hfs), Hincl, Hpub.
    simpl. rewrite (bool_decide_eq_true_2 _ Hpk), Hts. done.
  - unfold specWellFormedVote, hasTag. rewrite Hfind. simpl.
    rewrite (HNumber fs Hfs), Hincl, Hshape.
    by rewrite !existsb_app_true.
Qed.

(** The score of two votes of one voter. *)
Lemma computeScore_pair (e1 e2 : Event) (v : string) (t1 s1 t2 s2 : Z) :
  voteTriple Number e1 = Some (v, t1, s1) →
  voteTriple Number e2 = Some (v, t2, s2) →
  computeScore Number [e1; e2] = if t2 >? t1 then s2 else s1.
Proof.
  intros H1 H2. unfold computeScore.
  change [e1; e2] with ([e1] ++ [e2]).
  rewrite latestByVoter_snoc, sumSigns_scoreStep.
  assert (Hm : latestByVoter Number [e1] = <[v := mkLatest t1 s1]> ∅).
  { unfold latestByVoter. simpl. by rewrite scoreStep_voteTriple, H1, lookup_empty. }
  rewrite Hm, sumSigns_insert_fresh, sumSigns_empty by apply lookup_empty.
  unfold scoreDelta. rewrite H2, lookup_insert_eq. simpl.
  destruct (t2 >? t1); lia.
Qed.

(** X17: the vote event that [sendVote] signs is read back by the
    resolution as the vote it was made from: its voter is the public key of
    the signing key, its timestamp the clock reading, and its sign the final
    sign of the toggle; it carries the [p], [e] and [v] tags, and alone it
    scores the final sign. *)
Theorem sendVote_resolution_round_trip (c : Client)
    (sk authorHex eventIdHex : string) (sign now : Z) :
  sign = 1 ∨ sign = -1 →
  (∀ z, -1 ≤ z ≤ 1 → Number (pretty z) = Int z) →
  getPublicKey sk ≠ "" →
  let ev := sentVote getPublicKey getEventHash getSignature
              c sk authorHex eventIdHex sign now in
  voteTriple Number ev =
    Some (getPublicKey sk, now, nextVoteSign c eventIdHex sign) ∧
  specWellFormedVote Number ev = true ∧
  computeScore Number [ev] = nextVoteSign c eventIdHex sign.
Proof.
  intros Hsign HNumber Hpk ev.
  destruct (sentVote_voteTriple c sk authorHex eventIdHex sign now
              Hsign HNumber Hpk) as [Htr Hwf].
  fold ev in Htr, Hwf. split; [done|]. split; [done|].
  unfold computeScore, latestByVoter. simpl.
  rewrite scoreStep_voteTriple, Htr, lookup_empty.
  by rewrite sumSigns_insert_fresh, sumSigns_empty by apply lookup_empty.
Qed.

(** X18: a vote and its withdrawal, as the resolution sees them.  When the
    clock (in seconds) has advanced between the two clicks the two events
    score 0 in either order.  When both clicks fall into the same second the
    two events carry one timestamp: the ledger holds 0, but the events score
    the first sign when the vote is resolved before its withdrawal. *)
Theorem sendVote_twice_resolution (c : Client)
    (sk authorHex eventIdHex : string) (sign now now' : Z) :
  sign = 1 ∨ sign = -1 →
  (∀ z, -1 ≤ z ≤ 1 → Number (pretty z) = Int z) →
  privateKey c = Some sk → sk ≠ "" → truthy (publicKey c) = true →
  getPublicKey sk ≠ "" →
  mapPublish (relays c)
    (sentVote getPublicKey getEventHash getSignature
       c sk authorHex eventIdHex sign now) ≠ None →
  localVotes c !! eventIdHex ≠ Some sign →
  let ev1 := sentVote getPublicKey getEventHash getSignature
               c sk authorHex eventIdHex sign now in
  let c1 := sendVote getPublicKey getEventHash getSignature
              c authorHex eventIdHex sign now in
  let ev2 := sentVote getPublicKey getEventHash getSignature
               c1 sk authorHex eventIdHex sign now' in
  (now < now' →
   computeScore Number [ev1; ev2] = 0 ∧ computeScore Number [ev2; ev1] = 0) ∧
  (now' = now →
   computeScore Number [ev1; ev2] = sign ∧ computeScore Number [ev2; ev1] = 0).
Proof.
  intros Hsign HNumber Hsk Hne Hpk Hpub Hsent Hfirst ev1 c1 ev2.
  destruct (sentVote_voteTriple c sk authorHex eventIdHex sign now
              Hsign HNumber Hpub) as [Htr1 _].
  destruct (sentVote_voteTriple c1 sk authorHex eventIdHex sign now'
              Hsign HNumber Hpub) as [Htr2 _].
  fold ev1 in Htr1. fold ev2 in Htr2.
  pose proof (nextVoteSign_spec c eventIdHex sign Hsign) as Hn1.
  rewrite bool_decide_eq_false_2 in Hn1 by done.
  destruct (sendVote_attempted getPublicKey getEventHash getSignature
              c sk authorHex eventIdHex sign now Hsk Hne Hpk Hsent) as [Hl1 _].
  fold c1 in Hl1.
  pose proof (nextVoteSign_spec c1 eventIdHex sign Hsign) as Hn2.
  rewrite bool_decide_eq_true_2 in Hn2
    by (by rewrite Hl1, lookup_insert_eq, Hn1).
  rewrite Hn1 in Htr1. rewrite Hn2 in Htr2.
  rewrite (computeScore_pair ev1 ev2 _ _ _ _ _ Htr1 Htr2).
  rewrite (computeScore_pair ev2 ev1 _ _ _ _ _ Htr2 Htr1).
  split.
  - intros Hlt. split.
    + by destruct (Z.gtb_spec now' now); [|lia].
    + by destruct (Z.gtb_spec now now'); [lia|].
  - intros ->. by destruct (Z.gtb_spec now now); [lia|].
Qed.

(** X19: a click on the feed votes only when it hits a vote button with a
    non-empty note id and author and a sign that reads +1 or -1; any other
    click leaves the client as it is.  Whatever is clicked, the ledger keeps
    holding only the values -1, 0 and 1, and only the entry of the clicked
    note can change. *)
Theorem onFeedClick_guard (c : Client) (btn : option VoteButton) (now : Z) :
  let c' := onFeedClick Number getPublicKey getEventHash getSignature
              c btn now in
  (ledgerInv c → ledgerInv c') ∧
  (∀ k, btn ≫= data_eid ≠ Some k → localVotes c' !! k = localVotes c !! k) ∧
  (btn ≫= data_eid = None ∨ btn ≫= data_eid = Some "" ∨
   btn ≫= data_author = None ∨ btn ≫= data_author = Some "" ∨
   (NumberOf Number (btn ≫= data_sign) ≠ Int 1 ∧
    NumberOf Number (btn ≫= data_sign) ≠ Int (-1)) →
   c' = c).
Proof.
  unfold onFeedClick. destruct btn as [btn|]; [|simpl; repeat split; done].
  cbv zeta.
  change (Some btn ≫= data_eid) with (data_eid btn).
  change (Some btn ≫= data_author) with (data_author btn).
  change (Some btn ≫= data_sign) with (data_sign btn).
  destruct (NumberOf Number (data_sign btn)) as [sign|] eqn:Hs;
    [|repeat split; done].
  destruct (data_eid btn) as [eid|] eqn:Heid; [|repeat split; done].
  destruct (data_author btn) as [author|] eqn:Hau; [|repeat split; done].
  destruct (negb (truthy (Some eid)) || negb (truthy (Some author)) ||
            negb (includes [1; -1] sign)) eqn:Hguard; [repeat split; done|].
  apply orb_false_iff in Hguard as [Hguard Hincl].
  apply orb_false_iff in Hguard as [Heidt Haut].
  apply negb_false_iff in Heidt, Haut, Hincl. simpl in Heidt, Haut.
  apply bool_decide_eq_true in Heidt, Haut.
  unfold includes in Hincl. apply bool_decide_eq_true in Hincl.
  assert (Hsign : sign = 1 ∨ sign = -1).
  { apply elem_of_cons in Hincl as [?|Hincl]; [by left|].
    apply list_elem_of_singleton in Hincl. by right. }
  destruct (sendVote_frame c author eid sign now)
    as (_ & _ & _ & _ & _ & _ & _ & _ & _ & Hl).
  split; [by apply sendVote_ledgerInv|]. split.
  - intros k Hk. destruct Hl as [-> | ->]; [done|].
    rewrite lookup_insert_ne; [done|congruence].
  - intros [?|[?|[?|[?|[H1 H2]]]]]; simplify_eq.
    destruct Hsign as [-> | ->]; done.
Qed.

End VoteFurther.

(** ** Keys *)

Section KeysProperties.

Variable getPublicKey : string → string.

(** X20: keys that were generated are found again: after
    [generateNewKeys] has stored a (non-empty) private key, a later
    [loadOrGenerateKeys] on that storage, in whatever client, takes up this
    key and the public key derived from it, generates nothing, shows no
    notification and leaves the storage as it is. *)
Theorem loadOrGenerateKeys_after_generate (c c2 : Client)
    (storage : gmap string string) (fresh fresh2 : string) :
  fresh ≠ "" →
  let storage1 := (generateNewKeys getPublicKey c storage fresh).2 in
  loadOrGenerateKeys getPublicKey c2 storage1 fresh2 =
    (setKeys c2 fresh (getPublicKey fresh), storage1) ∧
  privateKey (generateNewKeys getPublicKey c storage fresh).1 = Some fresh ∧
  privateKey (loadOrGenerateKeys getPublicKey c2 storage1 fresh2).1 = Some fresh.
Proof.
  intros Hne. simpl.
  assert (Hload : loadOrGenerateKeys getPublicKey c2
                    (<[STORAGE_KEY:=fresh]> storage) fresh2 =
                  (setKeys c2 fresh (getPublicKey fresh),
                   <[STORAGE_KEY:=fresh]> storage)).
  { unfold loadOrGenerateKeys. rewrite lookup_insert_eq. simpl.
    by rewrite (bool_decide_eq_true_2 _ Hne). }
  split; [done|]. split; [done|]. by rewrite Hload.
Qed.

End KeysProperties.

(** ** More on publishing *)

Section PublishFurther.

Variable getPublicKey : string → string.
Variable getEventHash : Event → string.
Variable getSignature : Event → string → string.

(** X22: [publishNote] never touches the seen ids, the buffer, the ledger
    or the keys, and renders at most one event, which is the note it signs:
    the event of kind 1 with the given text, the time of the call and no
    tag, finished with the private key of the client.  With an empty text,
    or with no relay connected, it renders and announces nothing and raises
    one alert. *)
Theorem publishNote_frame (c : Client) (content : string) (now : Z) :
  let c' := publishNote getPublicKey getEventHash getSignature c content now in
  seenIds c' = seenIds c ∧ buffer c' = buffer c ∧
  localVotes c' = localVotes c ∧ privateKey c' = privateKey c ∧
  (rendered c' = rendered c ∨
   ∃ sk, privateKey c = Some sk ∧ content ≠ "" ∧
         size (connectedRelays c) ≠ 0%nat ∧
         rendered c' =
           rendered c ++
           [finishEvent getPublicKey getEventHash getSignature
              (mkEvent KIND_NOTE (Some now) [] content None None None) sk]) ∧
  (content = "" ∨ size (connectedRelays c) = 0%nat →
   rendered c' = rendered c ∧ feed c' = feed c ∧ toasts c' = toasts c ∧
   length (alerts c') = S (length (alerts c))).
Proof.
  simpl. unfold publishNote.
  case_bool_decide as Hcontent.
  { simpl. repeat split; try done; try (by left). by rewrite length_app, Nat.add_1_r. }
  case_bool_decide as Hconn.
  { simpl. repeat split; try done; try (by left). by rewrite length_app, Nat.add_1_r. }
  assert (Hno : content = "" ∨ size (connectedRelays c) = 0%nat → False)
    by (by intros [?|?]).
  destruct (privateKey c) as [sk|] eqn:Hsk.
  - destruct (mapPublish _ _); simpl.
    all: split; [done|]; split; [done|]; split; [done|]; split; [done|].
    all: split; [right; by exists sk|intros H; by destruct (Hno H)].
  - simpl. repeat split; try done; try (by left); intros H; by destruct (Hno H).
Qed.

(** X23: the note is rendered before it is sent, and it stays: when a relay
    throws on [publish], [publishNote] shows "Failed to publish" and the
    note is on top of the feed all the same. *)
Theorem publishNote_render_survives_failure (c : Client) (sk content : string)
    (now : Z) :
  let ev := finishEvent getPublicKey getEventHash getSignature
              (mkEvent KIND_NOTE (Some now) [] content None None None) sk in
  let c' := publishNote getPublicKey getEventHash getSignature c content now in
  privateKey c = Some sk → content ≠ "" → size (connectedRelays c) ≠ 0%nat →
  mapPublish (relays c) ev = None →
  rendered c' = rendered c ++ [ev] ∧
  head (feed c') = Some ev ∧
  toasts c' = toasts c ++ [("Failed to publish", "error")].
Proof.
  intros ev c' Hsk Hcontent Hconn Hthrow. subst c'. unfold publishNote.
  rewrite (bool_decide_eq_false_2 _ Hcontent), (bool_decide_eq_false_2 _ Hconn), Hsk.
  fold ev. simpl relays. rewrite Hthrow. simpl.
  split; [done|]. split; [|done]. by destruct (feed c).
Qed.

End PublishFurther.

(** ** The first client *)

Lemma addEventToFeed_fold (feed : list Event) (events : list Event) :
  take 50 (foldl addEventToFeed feed events) = take 50 (reverse events ++ feed).
Proof.
  revert feed. induction events as [|ev events IH]; intros feed; [done|].
  simpl foldl. rewrite IH. unfold addEventToFeed.
  rewrite take_app_take by done. by rewrite reverse_cons, <- app_assoc.
Qed.

(** X24: the feed of the first client shows the events in the reverse of
    their order of arrival, above what it showed before, cut to 50 notes; an
    event that arrives twice is shown twice. *)
Theorem addEventToFeed_newest_first (feed : list Event) (events : list Event) :
  events ≠ [] →
  foldl addEventToFeed feed events = take 50 (reverse events ++ feed) ∧
  (length (foldl addEventToFeed feed events) ≤ 50)%nat.
Proof.
  intros Hne.
  assert (Hfold : foldl addEventToFeed feed events =
                  take 50 (reverse events ++ feed)).
  { rewrite <- addEventToFeed_fold.
    destruct events as [|ev events _] using rev_ind; [done|].
    rewrite foldl_app. simpl. unfold addEventToFeed. by rewrite take_take. }
  split; [done|]. rewrite Hfold, length_take. lia.
Qed.

(** ** The further properties on the sample data *)

(** alice's two votes and bob's vote score 0 = -1 + 1. *)
Lemma computeScore_app_disjoint_witness :
  computeScore NumberInt ([aliceUp10; aliceDown20] ++ [bobUp5]) =
  computeScore NumberInt [aliceUp10; aliceDown20] +
  computeScore NumberInt [bobUp5].
Proof.
  apply (computeScore_app_disjoint NumberInt [aliceUp10; aliceDown20] [bobUp5]).
  intros e1 e2 v H1 H2 Hv.
  apply list_elem_of_singleton in H2 as ->.
  apply elem_of_cons in H1 as [->|H1];
    [|apply list_elem_of_singleton in H1 as ->];
    vm_compute in Hv; injection Hv as <-; intros H; vm_compute in H;
    discriminate H.
Defined.

(** A relay that hands over two events with distinct ids. *)
Lemma collectFromRelay_last_write_witness :
  ∃ events,
    collectFromRelay (relayWith "wss://a" [aliceUp10; aliceDown20])
      (voteFilters "target") 3000 = Fulfilled events ∧
    ∀ ev, ev ∈ events ↔
          lastWithKey (inTime 3000 [(100, aliceUp10); (100, aliceDown20)]) ev.
Proof.
  apply (collectFromRelay_last_write
           (relayWith "wss://a" [aliceUp10; aliceDown20])
           (voteFilters "target") 3000
           [(100, aliceUp10); (100, aliceDown20)]).
  reflexivity.
Defined.

(** A relay that delivers after 100 ms and after 2000 ms, with a budget of
    500 ms, which takes the first vote, and with one of 3000 ms. *)
Lemma collectFromRelay_timeout_mono_witness :
  collectFromRelay relayTimed (voteFilters "target") 500 =
    Fulfilled [aliceUp10] ∧
  ∃ events2,
    collectFromRelay relayTimed (voteFilters "target") 3000 =
      Fulfilled events2 ∧
    ∀ ev1, ev1 ∈ [aliceUp10] →
           ∃ ev2, ev2 ∈ events2 ∧ idKey ev2 = idKey ev1.
Proof.
  split; [reflexivity|].
  apply (collectFromRelay_timeout_mono relayTimed (voteFilters "target")
           500 3000 [(100, aliceUp10); (2000, aliceDown20)] [aliceUp10]).
  - reflexivity.
  - lia.
  - reflexivity.
Defined.

(** A third relay echoes the vote that the second one has handed over. *)
Lemma updateScoreForPost_echo_witness :
  updateScoreForPost NumberInt
    (addRelay (addRelay freshClient (relayWith "wss://b" [aliceUp10]))
       (relayWith "wss://c" [aliceUp10])) "target" =
  updateScoreForPost NumberInt
    (addRelay freshClient (relayWith "wss://b" [aliceUp10])) "target".
Proof.
  apply (updateScoreForPost_echo NumberInt
           (addRelay freshClient (relayWith "wss://b" [aliceUp10]))
           (relayWith "wss://c" [aliceUp10]) "target").
  intros ev Hin. vm_compute in Hin. vm_compute. exact Hin.
Defined.

(** A note offered twice, flushed, and offered once more. *)
Lemma runFeed_no_repeat_witness :
  let ops := [Incoming (Some note100); Incoming (Some note100); Flush;
              Incoming (Some note100); Incoming (Some note300); Flush] in
  feedInv (runFeed freshClient ops) ∧
  NoDup (id <$> rendered (runFeed freshClient ops)) ∧
  feedInv (fetchRecentBurst (subscribeNotes freshClient relaySilent) relaySilent).
Proof.
  apply (runFeed_no_repeat freshClient
           [Incoming (Some note100); Incoming (Some note100); Flush;
            Incoming (Some note100); Incoming (Some note300); Flush]
           relaySilent).
  split.
  - apply NoDup_nil_2.
  - intros ev Hin. simpl in Hin. by apply elem_of_nil in Hin.
Defined.

Lemma flushBufferToFeed_then_incoming_witness :
  bufferIncoming (flushBufferToFeed clientThree) (Some note100) =
  flushBufferToFeed clientThree.
Proof.
  apply (flushBufferToFeed_then_incoming clientThree note100).
  - intros ev Hin.
    change (buffer clientThree) with [note100; note300; note200] in Hin.
    apply elem_of_cons in Hin as [->|Hin];
      [|apply elem_of_cons in Hin as [->|Hin];
        [|apply list_elem_of_singleton in Hin as ->]].
    + exists "n1". split; [reflexivity|].
      apply (bool_decide_unpack _). vm_compute. exact I.
    + exists "n3". split; [reflexivity|].
      apply (bool_decide_unpack _). vm_compute. exact I.
    + exists "n2". split; [reflexivity|].
      apply (bool_decide_unpack _). vm_compute. exact I.
  - change (buffer clientThree) with [note100; note300; note200].
    apply list_elem_of_here.
Defined.

Lemma flushBufferToFeed_feed_order_witness :
  feed (flushBufferToFeed clientThree) =
    take 200 (reverse (arraySort compareFn (buffer clientThree)) ++
              feed clientThree) ∧
  (length (feed (flushBufferToFeed clientThree)) ≤ 200)%nat.
Proof.
  apply (flushBufferToFeed_feed_order clientThree).
  intros H. vm_compute in H. discriminate H.
Defined.

(** With the stand-in digest the fourth attempt meets a target of 8 bits. *)
Lemma mineAndFinish_first_success_witness :
  mineAndFinishCounted toyPublicKey toyEventHash toySignature
    upvotePayload "sk" 8 15000 =
  (attempt toyPublicKey toyEventHash toySignature upvotePayload "sk"
     (Z.of_nat 3), 4%nat) ∧
  tags (mineAndFinish toyPublicKey toyEventHash toySignature
          upvotePayload "sk" 8 15000) =
  tags upvotePayload ++ [["nonce"; pretty (Z.of_nat 3)]].
Proof.
  apply (mineAndFinish_first_success toyPublicKey toyEventHash toySignature
           upvotePayload "sk" 8 15000 3).
  - simpl. lia.
  - intros j Hj. simpl in Hj.
    assert (Hcases : j = 0 ∨ j = 1 ∨ j = 2) by lia.
    destruct Hcases as [Hc | [Hc | Hc] ]; rewrite Hc; reflexivity.
  - reflexivity.
Defined.

(** With a budget of two attempts the payload is signed as it is. *)
Lemma mineAndFinish_exhausted_witness :
  mineAndFinishCounted toyPublicKey toyEventHash toySignature
    upvotePayload "sk" 8 2 =
  (finishEvent toyPublicKey toyEventHash toySignature upvotePayload "sk",
   S (Z.to_nat 2)) ∧
  tags (mineAndFinish toyPublicKey toyEventHash toySignature
          upvotePayload "sk" 8 2) = tags upvotePayload.
Proof.
  apply (mineAndFinish_exhausted toyPublicKey toyEventHash toySignature
           upvotePayload "sk" 8 2).
  intros j Hj.
  assert (Hcases : j = 0 ∨ j = 1) by lia.
  destruct Hcases as [Hc | Hc]; rewrite Hc; reflexivity.
Defined.

Lemma NumberInt_signs (z : Z) : -1 ≤ z ≤ 1 → NumberInt (pretty z) = Int z.
Proof.
  intros Hz. assert (Hcases : z = -1 ∨ z = 0 ∨ z = 1) by lia.
  destruct Hcases as [Hc | [Hc | Hc] ]; rewrite Hc; reflexivity.
Defined.

Lemma sendVote_resolution_round_trip_witness :
  let ev := sentVote toyPublicKey toyEventHash toySignature
              freshClient "sk" "author" "target" 1 1000 in
  voteTriple NumberInt ev =
    Some (toyPublicKey "sk", 1000, nextVoteSign freshClient "target" 1) ∧
  specWellFormedVote NumberInt ev = true ∧
  computeScore NumberInt [ev] = nextVoteSign freshClient "target" 1.
Proof.
  apply (sendVote_resolution_round_trip NumberInt
           toyPublicKey toyEventHash toySignature
           freshClient "sk" "author" "target" 1 1000).
  - left. reflexivity.
  - exact NumberInt_signs.
  - discriminate.
Defined.

(** An upvote and its withdrawal in the same second. *)
Lemma sendVote_twice_resolution_witness :
  let ev1 := sentVote toyPublicKey toyEventHash toySignature
               freshClient "sk" "author" "target" 1 1000 in
  let c1 := sendVote toyPublicKey toyEventHash toySignature
              freshClient "author" "target" 1 1000 in
  let ev2 := sentVote toyPublicKey toyEventHash toySignature
               c1 "sk" "author" "target" 1 1000 in
  computeScore NumberInt [ev1; ev2] = 1 ∧ computeScore NumberInt [ev2; ev1] = 0.
Proof.
  apply (sendVote_twice_resolution NumberInt
           toyPublicKey toyEventHash toySignature
           freshClient "sk" "author" "target" 1 1000 1000).
  - left. reflexivity.
  - exact NumberInt_signs.
  - reflexivity.
  - discriminate.
  - reflexivity.
  - discriminate.
  - discriminate.
  - discriminate.
  - reflexivity.
Defined.

Lemma loadOrGenerateKeys_after_generate_witness :
  let storage1 := (generateNewKeys toyPublicKey freshClient ∅ "k1").2 in
  loadOrGenerateKeys toyPublicKey freshClient storage1 "k2" =
    (setKeys freshClient "k1" (toyPublicKey "k1"), storage1) ∧
  privateKey (generateNewKeys toyPublicKey freshClient ∅ "k1").1 = Some "k1" ∧
  privateKey (loadOrGenerateKeys toyPublicKey freshClient storage1 "k2").1 =
    Some "k1".
Proof.
  apply (loadOrGenerateKeys_after_generate toyPublicKey
           freshClient freshClient ∅ "k1" "k2").
  discriminate.
Defined.

Lemma publishNote_render_survives_failure_witness :
  let ev := finishEvent toyPublicKey toyEventHash toySignature
              (mkEvent KIND_NOTE (Some 1000) [] "hello" None None None) "sk" in
  let c' := publishNote toyPublicKey toyEventHash toySignature
              clientBroken "hello" 1000 in
  rendered c' = rendered clientBroken ++ [ev] ∧
  head (feed c') = Some ev ∧
  toasts c' = toasts clientBroken ++ [("Failed to publish", "error")].
Proof.
  apply (publishNote_render_survives_failure
           toyPublicKey toyEventHash toySignature clientBroken "sk" "hello" 1000).
  - reflexivity.
  - discriminate.
  - intros H. vm_compute in H. discriminate H.
  - reflexivity.
Defined.

(** The same note handed over twice. *)
Lemma addEventToFeed_newest_first_witness :
  foldl addEventToFeed [note300] [note100; note100] =
    take 50 (reverse [note100; note100] ++ [note300]) ∧
  (length (foldl addEventToFeed [note300] [note100; note100]) ≤ 50)%nat.
Proof.
  apply (addEventToFeed_newest_first [note300] [note100; note100]).
  discriminate.
Defined.
